(** * VideoApp: the double-buffered player of [src/App.tsx]

    A shallow embedding of the [SeamlessPlayer] component (its React state,
    its two player refs, [loadInitialVideos] and [handleTap]) together with
    the part of [App] that mounts it, and the properties of the playback
    engine proved over that embedding.

    [handleTap] is an [async] function: every [await] is a point at which
    another tap can be handled.  The embedding therefore has two layers,
    proved to agree ([alone_handleTap]):
    - [handleTap] and [loadInitialVideos] as functions that run one call
      from start to finish, with the outcome of each awaited operation
      (and the number of timer periods that elapse meanwhile) supplied by
      the environment;
    - a labelled step function [step] ([tap], completion of an operation,
      [continue]) in which a call of [handleTap] is a suspended task, so
      that taps arriving while an advance is in flight can be expressed. *)

From Stdlib Require Import String List Bool Arith PeanoNat Lia Sorted.
From Stdlib Require Import DecimalString DecimalNat.
Import ListNotations.
Open Scope list_scope.

(* ------------------------------------------------------------------ *)
(** * Data model *)

(** [interface VideoStep] (lines 26-31). *)
Record VideoStep := mkVideoStep {
  id : string;
  stepNumber : nat;
  uri : string;
  filename : string
}.

(** [useState<0 | 1>]: 0 = Player A is active, 1 = Player B is active
    (lines 60-61). *)
Inductive PlayerId := Player0 | Player1.

Definition PlayerId_eqb (p q : PlayerId) : bool :=
  match p, q with
  | Player0, Player0 | Player1, Player1 => true
  | _, _ => false
  end.

(** [activePlayerId === 0 ? 1 : 0] (line 102). *)
Definition other (p : PlayerId) : PlayerId :=
  match p with Player0 => Player1 | Player1 => Player0 end.

Definition player_number (p : PlayerId) : nat :=
  match p with Player0 => 0 | Player1 => 1 end.

(** The four operations the component invokes on a [Video] ref. *)
Inductive Cmd :=
| loadAsync (source : string) (shouldPlay : bool)
| playAsync
| stopAsync
| unloadAsync.

Inductive Phase := Empty | Loading | Ready | Playing | Stopping.

Record SurfaceState := mkSurface {
  loadedClip : option string;
  phase : Phase
}.

(** Modelled from the spec: the [Video] element of expo-av is an external
    component, so what a command does to a playback surface follows the
    ClipSurface contract: [load] goes through [Loading] to [Ready] without
    starting playback, [play] makes the surface [Playing], [stop] goes
    through [Stopping] back to [Ready] (or [Empty] when nothing is loaded)
    and keeps the decoder, [unload] releases the clip.  [issue] is the
    effect of starting the operation, [settle] the effect of its completion;
    a failed operation leaves the surface as it is, a failed load leaves it
    empty. *)
Definition issue (c : Cmd) (v : SurfaceState) : SurfaceState :=
  match c with
  | loadAsync _ _ => mkSurface None Loading
  | playAsync => v
  | stopAsync => mkSurface (loadedClip v) Stopping
  | unloadAsync => v
  end.

(** Modelled from the spec: the effect on a surface of an operation of
    the ClipSurface contract completing, with outcome [ok]. *)
Definition settle (c : Cmd) (ok : bool) (v : SurfaceState) : SurfaceState :=
  match c, ok with
  | loadAsync src play, true =>
      mkSurface (Some src) (if play then Playing else Ready)
  | loadAsync _ _, false => mkSurface None Empty
  | playAsync, true => mkSurface (loadedClip v) Playing
  | stopAsync, true =>
      mkSurface (loadedClip v)
                (match loadedClip v with Some _ => Ready | None => Empty end)
  | unloadAsync, true => mkSurface None Empty
  | _, false => v
  end.

(** Which [await] of [handleTap] a suspended call is waiting at
    (lines 107, 114, 119, 124). *)
Inductive Await := AwaitPlay | AwaitStop | AwaitLoad | AwaitUnload.

(** The promise being awaited: still running, or settled with its outcome.
    [call] is the command that was issued and the player it went to;
    [None] when the ref was null and [?.] produced [undefined]. *)
Inductive Promise := Pending | Settled (ok : bool).

(** A call of [handleTap] suspended at an [await], with the constants it
    computed from the render it was created in (lines 93, 102). *)
Record Task := mkTask {
  nextIndex : nat;
  nextActiveId : PlayerId;
  awaiting : Await;
  call : option (PlayerId * Cmd);
  promise : Promise
}.

(** What the component does, in the order it does it. *)
Inductive Event :=
| EvCall (p : PlayerId) (c : Cmd)
| EvSettled (p : PlayerId) (c : Cmd) (ok : bool)
| EvSetActivePlayerId (p : PlayerId)
| EvSetCurrentIndex (n : nat)
| EvSetLoadingProgress (n : nat)
| EvSetIsReady (b : bool)
| EvOnExit
| EvRejected.

(** The state of one playback session: the hooks of [SeamlessPlayer]
    (lines 52-61), [isPlaying] of [App] (line 177), the calls of [handleTap]
    that are suspended, and the history of events. *)
Record Session := mkSession {
  playlist : list VideoStep;
  currentIndex : nat;
  isReady : bool;
  loadingProgress : nat;
  activePlayerId : PlayerId;
  playerARef : option SurfaceState;
  playerBRef : option SurfaceState;
  isPlaying : bool;
  pendingTaps : list Task;
  history : list Event
}.

(** [useState] initialisers; [App] renders the player when [isPlaying]
    (lines 246-248).  The refs are created null (lines 57-58) and React
    sets them when the [Video] elements are rendered; what they hold when
    the session starts is a parameter, so that the results below cover
    players that are mounted from the start as well as null refs. *)
Definition mount (steps : list VideoStep)
           (refA refB : option SurfaceState) : Session :=
  mkSession steps 0 false 0 Player0 refA refB true [] [].

(* ------------------------------------------------------------------ *)
(** * State updates *)

Definition log (e : Event) (s : Session) : Session :=
  mkSession (playlist s) (currentIndex s) (isReady s) (loadingProgress s)
            (activePlayerId s) (playerARef s) (playerBRef s) (isPlaying s)
            (pendingTaps s) (history s ++ [e]).

Definition setCurrentIndex (n : nat) (s : Session) : Session :=
  log (EvSetCurrentIndex n)
      (mkSession (playlist s) n (isReady s) (loadingProgress s)
                 (activePlayerId s) (playerARef s) (playerBRef s)
                 (isPlaying s) (pendingTaps s) (history s)).

Definition setActivePlayerId (p : PlayerId) (s : Session) : Session :=
  log (EvSetActivePlayerId p)
      (mkSession (playlist s) (currentIndex s) (isReady s)
                 (loadingProgress s) p (playerARef s) (playerBRef s)
                 (isPlaying s) (pendingTaps s) (history s)).

Definition setLoadingProgress (n : nat) (s : Session) : Session :=
  log (EvSetLoadingProgress n)
      (mkSession (playlist s) (currentIndex s) (isReady s) n
                 (activePlayerId s) (playerARef s) (playerBRef s)
                 (isPlaying s) (pendingTaps s) (history s)).

Definition setPendingTaps (ts : list Task) (s : Session) : Session :=
  mkSession (playlist s) (currentIndex s) (isReady s) (loadingProgress s)
            (activePlayerId s) (playerARef s) (playerBRef s) (isPlaying s)
            ts (history s).

(** [onExit = () => setIsPlaying(false)] (line 247).  [App] then stops
    rendering the player; the record keeps what the refs held at that
    moment, so only what is said of sessions still on screen, and of the
    exit itself, is to be read off the players afterwards. *)
Definition onExit (s : Session) : Session :=
  log EvOnExit
      (mkSession (playlist s) (currentIndex s) (isReady s)
                 (loadingProgress s) (activePlayerId s) (playerARef s)
                 (playerBRef s) false (pendingTaps s) (history s)).

(** [ref.current] of the player with the given id (lines 103-104). *)
Definition playerRef (p : PlayerId) (s : Session) : option SurfaceState :=
  match p with Player0 => playerARef s | Player1 => playerBRef s end.

Definition setPlayer (p : PlayerId) (v : SurfaceState) (s : Session)
  : Session :=
  match p with
  | Player0 =>
      mkSession (playlist s) (currentIndex s) (isReady s)
                (loadingProgress s) (activePlayerId s) (Some v)
                (playerBRef s) (isPlaying s) (pendingTaps s) (history s)
  | Player1 =>
      mkSession (playlist s) (currentIndex s) (isReady s)
                (loadingProgress s) (activePlayerId s) (playerARef s)
                (Some v) (isPlaying s) (pendingTaps s) (history s)
  end.

(** [ref.current?.cmd()]: starts the operation when the ref is set and
    yields its promise; yields [undefined] when the ref is null. *)
Definition start (p : PlayerId) (c : Cmd) (s : Session)
  : option (PlayerId * Cmd) * Session :=
  match playerRef p s with
  | Some v => (Some (p, c), log (EvCall p c) (setPlayer p (issue c v) s))
  | None => (None, s)
  end.

(** The operation started by [start] completes with outcome [ok]. *)
Definition finish (p : PlayerId) (c : Cmd) (ok : bool) (s : Session)
  : Session :=
  match playerRef p s with
  | Some v => log (EvSettled p c ok) (setPlayer p (settle c ok v) s)
  | None => log (EvSettled p c ok) s
  end.

(* ------------------------------------------------------------------ *)
(** * [handleTap], run from start to finish *)

(** The outcome the environment gives to each awaited operation of one
    call of [handleTap]: [true] when the promise resolves, [false] when it
    rejects. *)
Record Outcomes := mkOutcomes {
  playOk : bool;
  stopOk : bool;
  loadOk : bool;
  unloadOk : bool
}.

Definition all_ok : Outcomes := mkOutcomes true true true true.

(** [await ref.current?.cmd()]: the operation is started and completes
    with outcome [ok]; awaiting [undefined] (null ref) always succeeds. *)
Definition await (ok : bool) (p : PlayerId) (c : Cmd) (s : Session)
  : bool * Session :=
  match start p c s with
  | (Some (q, d), s1) => (ok, finish q d ok s1)
  | (None, s1) => (true, s1)
  end.

(** A rejected [await] rejects the promise of the [async] function: the
    rest of the body does not run, and nothing catches the rejection. *)
Definition and_then (r : bool * Session) (k : Session -> Session)
  : Session :=
  if fst r then k (snd r) else log EvRejected (snd r).

Notation "s <~ r ;; k" := (and_then r (fun s => k))
  (at level 61, r at next level, right associativity).

(** [handleTap] (lines 92-126). *)
Definition handleTap (o : Outcomes) (s : Session) : Session :=
  let nextIndex := currentIndex s + 1 in
  if length (playlist s) <=? nextIndex then onExit s
  else
    let nextActiveId := other (activePlayerId s) in
    let nextPlayerRef := nextActiveId in
    let prevPlayerRef := other nextActiveId in
    s1 <~ await (playOk o) nextPlayerRef playAsync s;;
    let s2 := setCurrentIndex nextIndex (setActivePlayerId nextActiveId s1) in
    s3 <~ await (stopOk o) prevPlayerRef stopAsync s2;;
    let futureIndex := nextIndex + 1 in
    if futureIndex <? length (playlist s3) then
      match nth_error (playlist s3) futureIndex with
      | Some v =>
          s4 <~ await (loadOk o) prevPlayerRef (loadAsync (uri v) false) s3;;
          s4
      | None => log EvRejected s3
      end
    else
      s4 <~ await (unloadOk o) prevPlayerRef unloadAsync s3;;
      s4.

(** The touch layer that calls [handleTap] exists only while [App] shows
    the player and the player is past its loading screen (lines 128, 167,
    246). *)
Definition touchable (s : Session) : bool := isPlaying s && isReady s.

Definition press (o : Outcomes) (s : Session) : Session :=
  if touchable s then handleTap o s else s.

(** A sequence of taps, each handled to the end before the next one. *)
Fixpoint presses (os : list Outcomes) (s : Session) : Session :=
  match os with
  | [] => s
  | o :: os' => presses os' (press o s)
  end.

(* ------------------------------------------------------------------ *)
(** * [handleTap] as a suspended task *)

Definition putTask (i : nat) (t : Task) (s : Session) : Session :=
  setPendingTaps (firstn i (pendingTaps s) ++ t :: skipn (S i) (pendingTaps s))
                 s.

Definition dropTask (i : nat) (s : Session) : Session :=
  setPendingTaps (firstn i (pendingTaps s) ++ skipn (S i) (pendingTaps s)) s.

(** The call suspends at [aw] on the promise (or [undefined]) that [start]
    returned. *)
Definition suspended (ni : nat) (na : PlayerId) (aw : Await)
           (c : option (PlayerId * Cmd)) : Task :=
  mkTask ni na aw c (match c with Some _ => Pending | None => Settled true end).

(** A tap: the body of [handleTap] up to its first [await]
    (lines 93-107). *)
Definition tap (s : Session) : Session :=
  let nextIndex := currentIndex s + 1 in
  if length (playlist s) <=? nextIndex then onExit s
  else
    let nextActiveId := other (activePlayerId s) in
    let r := start nextActiveId playAsync s in
    setPendingTaps
      (pendingTaps (snd r)
         ++ [suspended nextIndex nextActiveId AwaitPlay (fst r)])
      (snd r).

(** The body of [handleTap] from one [await] to the next
    (lines 109-114, 116-125), for the task at position [i]. *)
Definition continue (i : nat) (t : Task) (ok : bool) (s : Session)
  : Session :=
  if ok then
    let prevPlayerRef := other (nextActiveId t) in
    match awaiting t with
    | AwaitPlay =>
        let s2 := setCurrentIndex (nextIndex t)
                    (setActivePlayerId (nextActiveId t) s) in
        let r := start prevPlayerRef stopAsync s2 in
        putTask i (suspended (nextIndex t) (nextActiveId t) AwaitStop (fst r))
                (snd r)
    | AwaitStop =>
        let futureIndex := nextIndex t + 1 in
        if futureIndex <? length (playlist s) then
          match nth_error (playlist s) futureIndex with
          | Some v =>
              let r := start prevPlayerRef (loadAsync (uri v) false) s in
              putTask i (suspended (nextIndex t) (nextActiveId t)
                                   AwaitLoad (fst r))
                      (snd r)
          | None => log EvRejected (dropTask i s)
          end
        else
          let r := start prevPlayerRef unloadAsync s in
          putTask i (suspended (nextIndex t) (nextActiveId t)
                               AwaitUnload (fst r))
                  (snd r)
    | AwaitLoad | AwaitUnload => dropTask i s
    end
  else log EvRejected (dropTask i s).

Inductive Label :=
| Tap
| Complete (i : nat) (ok : bool)
| Resume (i : nat).

(** One step of the session: a tap, the completion of the operation task
    [i] is waiting for, or task [i] running on from a settled promise.
    [None] when the step cannot happen in [s]. *)
Definition step (l : Label) (s : Session) : option Session :=
  match l with
  | Tap => if touchable s then Some (tap s) else None
  | Complete i ok =>
      match nth_error (pendingTaps s) i with
      | Some t =>
          match call t, promise t with
          | Some (p, c), Pending =>
              Some (putTask i
                      (mkTask (nextIndex t) (nextActiveId t) (awaiting t)
                              (call t) (Settled ok))
                      (finish p c ok s))
          | _, _ => None
          end
      | None => None
      end
  | Resume i =>
      match nth_error (pendingTaps s) i with
      | Some t =>
          match promise t with
          | Settled ok => Some (continue i t ok s)
          | Pending => None
          end
      | None => None
      end
  end.

Fixpoint run (ls : list Label) (s : Session) : option Session :=
  match ls with
  | [] => Some s
  | l :: ls' =>
      match step l s with
      | Some s' => run ls' s'
      | None => None
      end
  end.

(** The steps by which one call of [handleTap] runs to its end with the
    outcomes [o], when nothing else is in flight and both refs are set. *)
Definition alone (o : Outcomes) (s : Session) : list Label :=
  if length (playlist s) <=? currentIndex s + 1 then [Tap]
  else
    [Tap; Complete 0 (playOk o); Resume 0]
      ++ (if playOk o then
            [Complete 0 (stopOk o); Resume 0]
              ++ (if stopOk o then
                    [Complete 0 (if currentIndex s + 2 <? length (playlist s)
                                 then loadOk o else unloadOk o);
                     Resume 0]
                  else [])
          else []).

(* ------------------------------------------------------------------ *)
(** * Example sessions *)

Definition clip (n : nat) (u : string) : VideoStep :=
  mkVideoStep u n u u.

Definition clips1 : list VideoStep := [clip 1 "a.mov"%string].
Definition clips2 : list VideoStep := [clip 1 "a.mov"%string; clip 2 "b.mov"%string].
Definition clips3 : list VideoStep :=
  [clip 1 "a.mov"%string; clip 2 "b.mov"%string; clip 3 "c.mov"%string].

(** A session showing its first clip: Player A plays clip 0, Player B
    holds clip 1 when there is one. *)
Definition showing_first (steps : list VideoStep) : Session :=
  mkSession steps 0 true 100 Player0
            (match nth_error steps 0 with
             | Some v => Some (mkSurface (Some (uri v)) Playing)
             | None => Some (mkSurface None Empty)
             end)
            (match nth_error steps 1 with
             | Some v => Some (mkSurface (Some (uri v)) Ready)
             | None => Some (mkSurface None Empty)
             end)
            true [] [].

(* ------------------------------------------------------------------ *)
(** * [loadInitialVideos] *)

(** The local [progress] of [loadInitialVideos] and whether its interval
    has been cleared (lines 70-75). *)
Record Interval := mkInterval {
  progress : nat;
  cleared : bool
}.

(** The interval callback (lines 72-74); a cleared interval does not
    fire. *)
Definition onInterval (ts : Interval * Session) : Interval * Session :=
  if cleared (fst ts) then ts
  else
    let progress' := progress (fst ts) + 10 in
    (mkInterval progress' (80 <? progress'),
     setLoadingProgress progress' (snd ts)).

(** [n] periods of 200 ms elapse. *)
Definition elapse (n : nat) (ts : Interval * Session) : Interval * Session :=
  Nat.iter n onInterval ts.

(** What the environment decides during initialisation: how many timer
    periods elapse while each load is awaited, whether each load resolves,
    and how many periods elapse after [loadInitialVideos] has returned or
    rejected. *)
Record Startup := mkStartup {
  ticksA : nat;
  loadAOk : bool;
  ticksB : nat;
  loadBOk : bool;
  ticksAfter : nat
}.

(** [if (ref.current && playlist[k]) await ref.current.loadAsync(...)]
    (lines 78-80, 83-85), with the timer running during the [await]. *)
Definition preload (p : PlayerId) (k ticks : nat) (ok : bool)
           (ts : Interval * Session) : bool * (Interval * Session) :=
  match playerRef p (snd ts), nth_error (playlist (snd ts)) k with
  | Some _, Some v =>
      let c := loadAsync (uri v) false in
      let r := start p c (snd ts) in
      let ts' := elapse ticks (fst ts, snd r) in
      (ok, (fst ts', finish p c ok (snd ts')))
  | _, _ => (true, ts)
  end.

(** [loadInitialVideos] up to [setLoadingProgress(100)] (lines 68-88).
    The boolean tells whether the function ran to its end; when a load
    rejects, the rest of the body is skipped and the interval is left
    running. *)
Definition loadInitialVideos (e : Startup) (s : Session)
  : bool * (Interval * Session) :=
  let ts := (mkInterval 0 false, s) in
  let rA := preload Player0 0 (ticksA e) (loadAOk e) ts in
  if fst rA then
    let rB := preload Player1 1 (ticksB e) (loadBOk e) (snd rA) in
    if fst rB then
      let ts2 := snd rB in
      (true, (mkInterval (progress (fst ts2)) true,
              setLoadingProgress 100 (snd ts2)))
    else (false, (fst (snd rB), log EvRejected (snd (snd rB))))
  else (false, (fst (snd rA), log EvRejected (snd (snd rA)))).

(** The projection of the state onto the two stacked layers
    (lines 145-163). *)
Definition opacity (s : Session) (p : PlayerId) : nat :=
  if PlayerId_eqb (activePlayerId s) p then 1 else 0.

Definition zIndex (s : Session) (p : PlayerId) : nat :=
  if PlayerId_eqb (activePlayerId s) p then 2 else 1.

Definition shouldPlay (s : Session) (p : PlayerId) : bool :=
  PlayerId_eqb (activePlayerId s) p.

Definition setIsReady (b : bool) (s : Session) : Session :=
  log (EvSetIsReady b)
      (mkSession (playlist s) (currentIndex s) b (loadingProgress s)
                 (activePlayerId s) (playerARef s) (playerBRef s)
                 (isPlaying s) (pendingTaps s) (history s)).

(** Rendering a [Video] element with [ref={...}] sets a ref that is still
    null to the new, empty element (lines 147, 158). *)
Definition attach (r : option SurfaceState) : option SurfaceState :=
  match r with
  | Some v => Some v
  | None => Some (mkSurface None Empty)
  end.

Definition attachPlayers (s : Session) : Session :=
  mkSession (playlist s) (currentIndex s) (isReady s) (loadingProgress s)
            (activePlayerId s) (attach (playerARef s)) (attach (playerBRef s))
            (isPlaying s) (pendingTaps s) (history s).

(** [setIsReady(true)] (line 89) replaces the loading screen by the two
    layers (lines 128, 140-171): the two [Video] elements are rendered,
    and the one of the active player is rendered with [shouldPlay = true],
    which starts the clip it holds. *)
Definition showPlayers (s : Session) : Session :=
  let s1 := attachPlayers (setIsReady true s) in
  match playerRef (activePlayerId s1) s1 with
  | Some v =>
      match phase v with
      | Ready => setPlayer (activePlayerId s1) (settle playAsync true v) s1
      | _ => s1
      end
  | None => s1
  end.

(** The whole start of a session: [loadInitialVideos], the timer periods
    that elapse afterwards, and the [setTimeout] callback of line 89 when
    the function reached it. *)
Definition initialize (e : Startup) (s : Session) : Session :=
  let r := loadInitialVideos e s in
  let ts := elapse (ticksAfter e) (snd r) in
  if fst r then showPlayers (snd ts) else snd ts.

(** The values passed to [setLoadingProgress], in order. *)
Definition progressOf (e : Event) : list nat :=
  match e with EvSetLoadingProgress n => [n] | _ => [] end.

Definition published (h : list Event) : list nat := flat_map progressOf h.

(** The commands issued to the players, in order. *)
Definition callOf (e : Event) : list (PlayerId * Cmd) :=
  match e with EvCall p c => [(p, c)] | _ => [] end.

Definition calls (h : list Event) : list (PlayerId * Cmd) :=
  flat_map callOf h.

Definition isExit (e : Event) : bool :=
  match e with EvOnExit => true | _ => false end.

(** How many times [onExit] has been invoked. *)
Definition exits (h : list Event) : nat := length (filter isExit h).

Definition isPlayCall (e : Event) : bool :=
  match e with EvCall _ playAsync => true | _ => false end.

Definition isRejection (e : Event) : bool :=
  match e with EvRejected => true | _ => false end.

(** Two fresh, empty [Video] elements. *)
Definition blank : option SurfaceState := Some (mkSurface None Empty).

(* ------------------------------------------------------------------ *)
(** * Predicates and auxiliary definitions used in the statements *)

(** The swap of lines 110-111 touches the two hooks and nothing else. *)
Definition swap (na : PlayerId) (ni : nat) (s : Session) : Session :=
  setCurrentIndex ni (setActivePlayerId na s).

(** The last [await] of an advance: preload the clip after the next one
    into the player that was just stopped, or unload it (lines 116-125). *)
Definition preloadOrUnload (o : Outcomes) (prev : PlayerId) (ni : nat)
           (s3 : Session) : Session :=
  let futureIndex := ni + 1 in
  if futureIndex <? length (playlist s3) then
    match nth_error (playlist s3) futureIndex with
    | Some v =>
        s4 <~ await (loadOk o) prev (loadAsync (uri v) false) s3;; s4
    | None => log EvRejected s3
    end
  else
    s4 <~ await (unloadOk o) prev unloadAsync s3;; s4.

(** Two sessions agree on everything but the players and the history. *)
Definition same_hooks (s s' : Session) : Prop :=
  playlist s' = playlist s
  /\ currentIndex s' = currentIndex s
  /\ activePlayerId s' = activePlayerId s
  /\ isReady s' = isReady s
  /\ isPlaying s' = isPlaying s
  /\ loadingProgress s' = loadingProgress s
  /\ pendingTaps s' = pendingTaps s.

(** How many [playAsync] calls a history contains. *)
Definition playCalls (h : list Event) : nat := length (filter isPlayCall h).

(** How many times the promise of [handleTap] has rejected. *)
Definition rejections (h : list Event) : nat := length (filter isRejection h).

(** A rejected [playAsync] is tried a second time: the advance issues two
    [playAsync] calls. *)
Definition retries_once (o : Outcomes) (s : Session) : Prop :=
  playOk o = false ->
  playCalls (history (handleTap o s)) = playCalls (history s) + 2.

(** The session at the point where [stopAsync] has settled (line 114). *)
Definition afterStop (o : Outcomes) (s : Session) : Session :=
  snd (await (stopOk o) (activePlayerId s) stopAsync
         (swap (other (activePlayerId s)) (currentIndex s + 1)
            (snd (await (playOk o) (other (activePlayerId s)) playAsync s)))).

(** Events other than the exit signal. *)
Definition silent (l : list Event) : Prop :=
  Forall (fun e => isExit e = false) l.

(** The session is over: [App] no longer renders the player. *)
Definition finished (s : Session) : Prop := isPlaying s = false.

(** [k] taps, each advancing without failure, end the session that
    starts at [s]. *)
Definition finished_after (k : nat) (s : Session) : Prop :=
  finished (presses (repeat all_ok k) s).

(** [activePlayerId] is [currentIndex] mod 2. *)
Definition parity (s : Session) : Prop :=
  player_number (activePlayerId s) = currentIndex s mod 2.

(** The same for the target a suspended call has computed. *)
Definition task_parity (t : Task) : Prop :=
  player_number (nextActiveId t) = nextIndex t mod 2.

Definition coherent (s : Session) : Prop :=
  parity s /\ Forall task_parity (pendingTaps s).

(** A call of [handleTap] is suspended at one of its [await]s. *)
Definition advancing (s : Session) : Prop := pendingTaps s <> [].

(** A tap has no effect: it issues no command and starts no further
    call. *)
Definition tap_ignored (s : Session) : Prop :=
  forall s' : Session,
    step Tap s = Some s' ->
    calls (history s') = calls (history s)
    /\ pendingTaps s' = pendingTaps s.

(** Two sessions agree on everything but [loadingProgress] and the
    history. *)
Definition same_but_progress (s s' : Session) : Prop :=
  playlist s' = playlist s
  /\ currentIndex s' = currentIndex s
  /\ activePlayerId s' = activePlayerId s
  /\ isReady s' = isReady s
  /\ isPlaying s' = isPlaying s
  /\ pendingTaps s' = pendingTaps s
  /\ playerARef s' = playerARef s
  /\ playerBRef s' = playerBRef s.

(** Consecutive values never decrease. *)
Definition ascending (l : list nat) : Prop :=
  forall (i p1 p2 : nat),
    nth_error l i = Some p1 -> nth_error l (S i) = Some p2 -> p1 <= p2.

(** While the interval may still fire: what has been published is sorted
    and bounded by the local [progress], which has not passed 90, and not
    80 unless the interval has cleared itself. *)
Definition ticking (ts : Interval * Session) : Prop :=
  Sorted le (published (history (snd ts)))
  /\ Forall (fun n => n <= progress (fst ts)) (published (history (snd ts)))
  /\ progress (fst ts) <= 90
  /\ (cleared (fst ts) = false -> progress (fst ts) <= 80).

(** What initialisation before [setIsReady] leaves alone: the hooks other
    than [loadingProgress], and the host (no [onExit]). *)
Definition loading (s s' : Session) : Prop :=
  playlist s' = playlist s
  /\ currentIndex s' = currentIndex s
  /\ activePlayerId s' = activePlayerId s
  /\ isReady s' = isReady s
  /\ isPlaying s' = isPlaying s
  /\ pendingTaps s' = pendingTaps s
  /\ exists l, history s' = history s ++ l /\ silent l.

(** Whether [if (ref.current && playlist[k])] lets the load happen. *)
Definition loadIssued (p : PlayerId) (k : nat) (s : Session) : bool :=
  match playerRef p s, nth_error (playlist s) k with
  | Some _, Some _ => true
  | _, _ => false
  end.









(* ------------------------------------------------------------------ *)
(** * The manager screen: [App] *)

(** [STEPS_STORAGE_KEY] (line 22). *)
Definition STEPS_STORAGE_KEY : string := "APP_VIDEO_STEPS_V1"%string.

(** A number inside a template literal, or [toString()] of it. *)
Definition decimal (n : nat) : string :=
  NilEmpty.string_of_uint (Nat.to_uint n).

(** The state of [App] other than [isPlaying] (line 176), and what it has
    done to its collaborators: the content of AsyncStorage, the files
    copied, the alerts shown, the errors logged and the promises that
    rejected with nothing handling them. *)
Record App := mkApp {
  steps : list VideoStep;
  storage : string -> option string;
  copies : list (string * string);
  alerts : list (string * string);
  consoleErrors : list string;
  unhandled : nat
}.

(** [App] when it is launched over the given storage. *)
Definition launch (st : string -> option string) : App :=
  mkApp [] st [] [] [] 0.

Definition setSteps (l : list VideoStep) (a : App) : App :=
  mkApp l (storage a) (copies a) (alerts a) (consoleErrors a) (unhandled a).

(** [AsyncStorage.setItem(key, value)]. *)
Definition setItem (key value : string) (a : App) : App :=
  mkApp (steps a)
        (fun k => if String.eqb k key then Some value else storage a k)
        (copies a) (alerts a) (consoleErrors a) (unhandled a).

(** [FileSystem.copyAsync({from, to})]. *)
Definition copyAsync (from to : string) (a : App) : App :=
  mkApp (steps a) (storage a) (copies a ++ [(from, to)]) (alerts a)
        (consoleErrors a) (unhandled a).

(** [Alert.alert(title, message)]. *)
Definition alert (title message : string) (a : App) : App :=
  mkApp (steps a) (storage a) (copies a) (alerts a ++ [(title, message)])
        (consoleErrors a) (unhandled a).

(** [console.error(message)]. *)
Definition consoleError (message : string) (a : App) : App :=
  mkApp (steps a) (storage a) (copies a) (alerts a)
        (consoleErrors a ++ [message]) (unhandled a).

Definition unhandledRejection (a : App) : App :=
  mkApp (steps a) (storage a) (copies a) (alerts a) (consoleErrors a)
        (S (unhandled a)).

(** What [ImagePicker.launchImageLibraryAsync] comes back with: it
    rejects, the user cancels, or [result.assets[0]] has the given uri. *)
Inductive PickerResult :=
| PickerRejected
| PickerCanceled
| PickerAsset (assetUri : string).

(** What the environment decides during one [pickVideo]: the picker's
    result, the two values of [Date.now()] (lines 209 and 219), and
    whether the copy and the storage write resolve. *)
Record Pick := mkPick {
  picked : PickerResult;
  now1 : nat;
  now2 : nat;
  copyOk : bool;
  writeOk : bool
}.

(** The button pressed in the alert of [clearAll] (lines 233-243). *)
Inductive Choice := ChooseCancel | ChooseDelete.

Section Json.

(** [JSON.stringify] and [JSON.parse] on lists of steps; [parse] gives
    [None] when [JSON.parse] throws. *)
Variable stringify : list VideoStep -> string.
Variable parse : string -> option (list VideoStep).

(** [loadSteps] (lines 183-190); [readOk] tells whether [getItem]
    resolves.  [if (saved)] is false for [null] and for the empty
    string. *)
Definition loadSteps (readOk : bool) (a : App) : App :=
  if readOk then
    match storage a STEPS_STORAGE_KEY with
    | Some saved =>
        if String.eqb saved "" then a
        else
          match parse saved with
          | Some l => setSteps l a
          | None => consoleError "Failed to load steps" a
          end
    | None => a
    end
  else consoleError "Failed to load steps" a.

(** [saveSteps] (lines 192-195): the state is set first, then the write
    is awaited; the boolean tells whether the promise resolved. *)
Definition saveSteps (ok : bool) (newSteps : list VideoStep) (a : App)
  : bool * App :=
  let a1 := setSteps newSteps a in
  if ok then (true, setItem STEPS_STORAGE_KEY (stringify newSteps) a1)
  else (false, a1).

(** The step [pickVideo] builds (lines 206-223). *)
Definition fileNameOf (newStepNum now : nat) : string :=
  ("video_step_" ++ decimal newStepNum ++ "_" ++ decimal now ++ ".mov")%string.

Definition newStepOf (documentDirectory : string) (p : Pick) (a : App)
  : VideoStep :=
  let newStepNum := length (steps a) + 1 in
  let fileName := fileNameOf newStepNum (now1 p) in
  let newPath := (documentDirectory ++ fileName)%string in
  mkVideoStep (decimal (now2 p)) newStepNum newPath fileName.

(** [pickVideo] (lines 197-230), run from start to finish. *)
Definition pickVideo (documentDirectory : string) (p : Pick) (a : App)
  : App :=
  match picked p with
  | PickerRejected => unhandledRejection a
  | PickerCanceled => a
  | PickerAsset assetUri =>
      let newStep := newStepOf documentDirectory p a in
      if copyOk p then
        let a1 := copyAsync assetUri (uri newStep) a in
        let r := saveSteps (writeOk p) (steps a ++ [newStep]) a1 in
        if fst r then snd r
        else alert "Error" "Could not save video locally." (snd r)
      else alert "Error" "Could not save video locally." a
  end.

(** [clearAll] (lines 232-244) with the button the user presses. *)
Definition clearAll (c : Choice) (ok : bool) (a : App) : App :=
  let a1 := alert "Reset" "Delete all videos?" a in
  match c with
  | ChooseCancel => a1
  | ChooseDelete =>
      let r := saveSteps ok [] a1 in
      if fst r then snd r else unhandledRejection (snd r)
  end.

(** What the user does on the manager screen. *)
Inductive Action :=
| DoPick (p : Pick)
| DoClear (c : Choice) (ok : bool).

Definition act (documentDirectory : string) (x : Action) (a : App) : App :=
  match x with
  | DoPick p => pickVideo documentDirectory p a
  | DoClear c ok => clearAll c ok a
  end.

Fixpoint acts (documentDirectory : string) (xs : list Action) (a : App)
  : App :=
  match xs with
  | [] => a
  | x :: xs' => acts documentDirectory xs' (act documentDirectory x a)
  end.

End Json.

(** The label of the upload button (lines 288-290). *)
Definition uploadLabel (a : App) : string :=
  ("Upload Step " ++ decimal (length (steps a) + 1))%string.

(** The titles of the cards of the list (line 277) and their keys
    (line 263). *)
Definition stepTitles (a : App) : list string :=
  map (fun item => ("Step " ++ decimal (stepNumber item))%string) (steps a).

Definition listKeys (a : App) : list string := map id (steps a).

(** [steps.length > 0 && ...]: the play button is rendered (line 293). *)
Definition playButtonShown (a : App) : bool := 0 <? length (steps a).

(** Pressing "Start Experience" (line 296): [App] renders the player with
    the current steps as its playlist; its refs are created null. *)
Definition startExperience (a : App) : option Session :=
  if playButtonShown a then Some (mount (steps a) None None) else None.

(** The steps carry the numbers 1, 2, ... in order. *)
Definition numbered (l : list VideoStep) : Prop :=
  map stepNumber l = seq 1 (length l).

(** AsyncStorage holds the steps shown. *)
Definition synced (stringify : list VideoStep -> string) (a : App) : Prop :=
  storage a STEPS_STORAGE_KEY = Some (stringify (steps a)).

(** The cursor and the target of every suspended call are positions of
    the playlist. *)
Definition inside (s : Session) : Prop :=
  currentIndex s < length (playlist s)
  /\ Forall (fun t => nextIndex t < length (playlist s)) (pendingTaps s).

(** The interval has fired [j] times: the local [progress] is [10 * j],
    the values published are 10, 20, ..., [10 * j], and the interval is
    cleared exactly when [j] has reached 9. *)
Definition counted (j : nat) (ts : Interval * Session) : Prop :=
  j <= 9
  /\ progress (fst ts) = 10 * j
  /\ cleared (fst ts) = (9 <=? j)
  /\ published (history (snd ts)) = map (fun k => 10 * k) (seq 1 j).

(** The load that [loadInitialVideos] issues for player [p] and position
    [k], if it issues one. *)
Definition initialLoad (p : PlayerId) (k : nat) (s : Session)
  : list (PlayerId * Cmd) :=
  match playerRef p s, nth_error (playlist s) k with
  | Some _, Some v => [(p, loadAsync (uri v) false)]
  | _, _ => []
  end.

(** The storage write of an action is set to resolve, should the action
    get as far as writing. *)
Definition writes (x : Action) : Prop :=
  match x with
  | DoPick p => writeOk p = true
  | DoClear _ ok => ok = true
  end.

(** The values of [Date.now()] that become the ids of the steps picked. *)
Definition pickTimes (xs : list Action) : list nat :=
  flat_map (fun x => match x with DoPick p => [now2 p] | DoClear _ _ => [] end)
           xs.

(** Every step shown points to a file the app has copied. *)
Definition backed (a : App) : Prop :=
  Forall (fun v => In (uri v) (map snd (copies a))) (steps a).

(** A codec for the examples: it only knows the empty list. *)
Definition emptyOnly (l : list VideoStep) : string :=
  match l with [] => "[]"%string | _ => "?"%string end.

Definition parseEmptyOnly (saved : string) : option (list VideoStep) :=
  if String.eqb saved "[]" then Some [] else None.

(** Example picks. *)
Definition pickOk (u : string) (t : nat) : Pick :=
  mkPick (PickerAsset u) t (t + 1) true true.

(** An app whose storage holds the empty list, and one example action
    sequence: a pick that succeeds. *)
Definition emptyApp : App :=
  mkApp [] (fun k => if String.eqb k STEPS_STORAGE_KEY
                     then Some "[]"%string else None)
        [] [] [] 0.

Definition onePick : list Action := [DoPick (pickOk "asset.mov" 5)].

(** A parser for the examples: it knows the empty list and the list that
    [onePick] produces. *)
Definition parseOnePick (saved : string) : option (list VideoStep) :=
  if String.eqb saved "[]" then Some []
  else Some (steps (acts emptyOnly "doc/" onePick emptyApp)).


(** A session as [App] starts it (refs null), once initialised. *)
Definition opened (l : list VideoStep) : Session :=
  initialize (mkStartup 0 true 0 true 0) (mount l None None).

Definition isTap (l : Label) : bool :=
  match l with Tap => true | _ => false end.

(** How many taps a sequence of steps contains. *)
Definition taps (ls : list Label) : nat := length (filter isTap ls).

(** The cursor and the target of every suspended call satisfy [P]. *)
Definition within (P : nat -> Prop) (s : Session) : Prop :=
  P (currentIndex s) /\ Forall (fun t => P (nextIndex t)) (pendingTaps s).

(** A step that neither changes the playlist nor ends the session. *)
Definition quiet (s s' : Session) : Prop :=
  playlist s' = playlist s
  /\ isPlaying s' = isPlaying s
  /\ exits (history s') = exits (history s).

(* ------------------------------------------------------------------ *)
(** * Basic facts *)

Lemma other_involutive (p : PlayerId) : other (other p) = p.
Proof. destruct p; reflexivity. Qed.

Lemma other_neq (p : PlayerId) : other p <> p.
Proof. destruct p; discriminate. Qed.

Lemma leb_next_false (s : Session) :
  currentIndex s + 1 < length (playlist s) ->
  (length (playlist s) <=? currentIndex s + 1) = false.
Proof. intro H. apply Nat.leb_gt. exact H. Qed.

Lemma leb_next_true (s : Session) :
  length (playlist s) <= currentIndex s + 1 ->
  (length (playlist s) <=? currentIndex s + 1) = true.
Proof. intro H. apply Nat.leb_le. exact H. Qed.

(** ** What one [await] does to each part of the session *)

Section Await.
Variables (ok : bool) (p : PlayerId) (c : Cmd) (s : Session).

Lemma await_fst :
  fst (await ok p c s)
  = match playerRef p s with Some _ => ok | None => true end.
Proof. unfold await, start. destruct (playerRef p s); reflexivity. Qed.

Lemma await_history :
  history (snd (await ok p c s))
  = history s
      ++ match playerRef p s with
         | Some _ => [EvCall p c; EvSettled p c ok]
         | None => []
         end.
Proof.
  unfold await, start, finish.
  destruct s as [pl ci rdy lp act a b playing ts h].
  destruct p; cbn [playerRef playerARef playerBRef].
  - destruct a; cbn; [rewrite <- app_assoc | rewrite app_nil_r]; reflexivity.
  - destruct b; cbn; [rewrite <- app_assoc | rewrite app_nil_r]; reflexivity.
Qed.

Lemma await_playerRef_same :
  playerRef p (snd (await ok p c s))
  = option_map (fun v => settle c ok (issue c v)) (playerRef p s).
Proof.
  unfold await, start, finish.
  destruct s as [pl ci rdy lp act a b playing ts h].
  destruct p; cbn [playerRef playerARef playerBRef].
  - destruct a; reflexivity.
  - destruct b; reflexivity.
Qed.

Lemma await_playerRef_other :
  playerRef (other p) (snd (await ok p c s)) = playerRef (other p) s.
Proof.
  unfold await, start, finish.
  destruct s as [pl ci rdy lp act a b playing ts h].
  destruct p; cbn [playerRef playerARef playerBRef other].
  - destruct a; reflexivity.
  - destruct b; reflexivity.
Qed.

Lemma await_frame :
  playlist (snd (await ok p c s)) = playlist s
  /\ currentIndex (snd (await ok p c s)) = currentIndex s
  /\ activePlayerId (snd (await ok p c s)) = activePlayerId s
  /\ isReady (snd (await ok p c s)) = isReady s
  /\ isPlaying (snd (await ok p c s)) = isPlaying s
  /\ loadingProgress (snd (await ok p c s)) = loadingProgress s
  /\ pendingTaps (snd (await ok p c s)) = pendingTaps s.
Proof.
  unfold await, start, finish.
  destruct s as [pl ci rdy lp act a b playing ts h].
  destruct p; cbn [playerRef playerARef playerBRef].
  - destruct a; cbn; repeat split.
  - destruct b; cbn; repeat split.
Qed.
End Await.

Lemma swap_history (na : PlayerId) (ni : nat) (s : Session) :
  history (swap na ni s)
  = history s ++ [EvSetActivePlayerId na; EvSetCurrentIndex ni].
Proof.
  destruct s; cbn. rewrite <- app_assoc. reflexivity.
Qed.

Lemma swap_frame (na : PlayerId) (ni : nat) (s : Session) :
  playlist (swap na ni s) = playlist s
  /\ currentIndex (swap na ni s) = ni
  /\ activePlayerId (swap na ni s) = na
  /\ (forall q, playerRef q (swap na ni s) = playerRef q s)
  /\ isReady (swap na ni s) = isReady s
  /\ isPlaying (swap na ni s) = isPlaying s
  /\ pendingTaps (swap na ni s) = pendingTaps s.
Proof.
  destruct s; cbn; repeat split.
Qed.

(** [handleTap] when there is a next clip, with its intermediate states
    named. *)
Lemma handleTap_advance (o : Outcomes) (s : Session) :
  currentIndex s + 1 < length (playlist s) ->
  let next := other (activePlayerId s) in
  let prev := activePlayerId s in
  handleTap o s
  = (s1 <~ await (playOk o) next playAsync s;;
     s3 <~ await (stopOk o) prev stopAsync
             (swap next (currentIndex s + 1) s1);;
     preloadOrUnload o prev (currentIndex s + 1) s3).
Proof.
  intros H next prev. unfold handleTap.
  rewrite (leb_next_false s H).
  cbv zeta. rewrite other_involutive. reflexivity.
Qed.

Lemma handleTap_exit (o : Outcomes) (s : Session) :
  length (playlist s) <= currentIndex s + 1 ->
  handleTap o s = onExit s.
Proof.
  intro H. unfold handleTap. rewrite (leb_next_true s H). reflexivity.
Qed.

Lemma and_then_ok (r : bool * Session) (k : Session -> Session) :
  fst r = true -> and_then r k = k (snd r).
Proof. unfold and_then. intros ->. reflexivity. Qed.

Lemma and_then_rejected (r : bool * Session) (k : Session -> Session) :
  fst r = false -> and_then r k = log EvRejected (snd r).
Proof. unfold and_then. intros ->. reflexivity. Qed.

Lemma log_history (e : Event) (s : Session) :
  history (log e s) = history s ++ [e].
Proof. reflexivity. Qed.

(** Whatever the last part of an advance does, it only adds events. *)
Lemma preloadOrUnload_extends (o : Outcomes) (prev : PlayerId) (ni : nat)
      (s3 : Session) :
  exists rest,
    history (preloadOrUnload o prev ni s3) = history s3 ++ rest.
Proof.
  unfold preloadOrUnload.
  destruct (ni + 1 <? length (playlist s3)).
  - destruct (nth_error (playlist s3) (ni + 1)) as [v|].
    + unfold and_then.
      destruct (fst (await (loadOk o) prev (loadAsync (uri v) false) s3)).
      * rewrite await_history. eexists; reflexivity.
      * rewrite log_history, await_history, <- app_assoc.
        eexists; reflexivity.
    + rewrite log_history. eexists; reflexivity.
  - unfold and_then.
    destruct (fst (await (unloadOk o) prev unloadAsync s3)).
    + rewrite await_history. eexists; reflexivity.
    + rewrite log_history, await_history, <- app_assoc.
      eexists; reflexivity.
Qed.

Lemma await_playerRef_neq (ok : bool) (p q : PlayerId) (c : Cmd)
      (s : Session) :
  q <> p -> playerRef q (snd (await ok p c s)) = playerRef q s.
Proof.
  intro H. replace q with (other p) by (destruct p, q; cbn; congruence).
  apply await_playerRef_other.
Qed.

(** ** Steps that leave the hooks alone *)

Lemma same_hooks_refl (s : Session) : same_hooks s s.
Proof. repeat split. Qed.

Lemma same_hooks_trans (s1 s2 s3 : Session) :
  same_hooks s1 s2 -> same_hooks s2 s3 -> same_hooks s1 s3.
Proof.
  unfold same_hooks.
  intros (A1 & A2 & A3 & A4 & A5 & A6 & A7) (B1 & B2 & B3 & B4 & B5 & B6 & B7).
  repeat split; congruence.
Qed.

Lemma same_hooks_log (e : Event) (s : Session) : same_hooks s (log e s).
Proof. repeat split. Qed.

Lemma same_hooks_await (ok : bool) (p : PlayerId) (c : Cmd) (s : Session) :
  same_hooks s (snd (await ok p c s)).
Proof. exact (await_frame ok p c s). Qed.

Lemma same_hooks_and_then (r : bool * Session) (s : Session) :
  same_hooks s (snd r) -> same_hooks s (and_then r (fun s4 => s4)).
Proof.
  intro H. unfold and_then. destruct (fst r); [exact H|].
  eapply same_hooks_trans; [exact H | apply same_hooks_log].
Qed.

Lemma same_hooks_preloadOrUnload (o : Outcomes) (prev : PlayerId) (ni : nat)
      (s3 : Session) :
  same_hooks s3 (preloadOrUnload o prev ni s3).
Proof.
  unfold preloadOrUnload.
  destruct (ni + 1 <? length (playlist s3)).
  - destruct (nth_error (playlist s3) (ni + 1)).
    + apply same_hooks_and_then, same_hooks_await.
    + apply same_hooks_log.
  - apply same_hooks_and_then, same_hooks_await.
Qed.

Lemma log_playerRef (e : Event) (q : PlayerId) (s : Session) :
  playerRef q (log e s) = playerRef q s.
Proof. destruct q; reflexivity. Qed.



(* ------------------------------------------------------------------ *)
(** * The order of events within one advance *)

(** C1.  An advance with a next clip available and both players mounted:
    [playAsync] is issued on the standby player and awaited; only when it
    has resolved are [activePlayerId] and [currentIndex] set, and only
    after that is [stopAsync] issued on the previously active player.
    When the awaited [playAsync] rejects, neither the swap nor the stop
    happens. *)
Theorem advance_order (o : Outcomes) (s : Session) :
  currentIndex s + 1 < length (playlist s) ->
  playerARef s <> None ->
  playerBRef s <> None ->
  let next := other (activePlayerId s) in
  let prev := activePlayerId s in
  (playOk o = true ->
   exists rest,
     history (handleTap o s) =
     history s
       ++ [EvCall next playAsync; EvSettled next playAsync true;
           EvSetActivePlayerId next; EvSetCurrentIndex (currentIndex s + 1);
           EvCall prev stopAsync]
       ++ rest)
  /\ (playOk o = false ->
      history (handleTap o s) =
      history s
        ++ [EvCall next playAsync; EvSettled next playAsync false;
            EvRejected]).
Proof.
  intros Hnext HA HB next prev.
  assert (Hmounted : forall q, playerRef q s <> None)
    by (intros []; assumption).
  rewrite (handleTap_advance o s Hnext). fold next prev.
  pose proof (Hmounted next) as Hn. pose proof (Hmounted prev) as Hp.
  destruct (playerRef next s) as [vn|] eqn:En; [clear Hn | congruence].
  destruct (playerRef prev s) as [vp|] eqn:Ep; [clear Hp | congruence].
  split; intro Hplay.
  - rewrite and_then_ok by (rewrite await_fst, En; exact Hplay).
    set (s1 := snd (await (playOk o) next playAsync s)).
    set (s2 := swap next (currentIndex s + 1) s1).
    assert (H1 : history s1
                 = history s ++ [EvCall next playAsync;
                                 EvSettled next playAsync true]).
    { unfold s1. rewrite await_history, En, Hplay. reflexivity. }
    assert (H2 : history s2
                 = history s1 ++ [EvSetActivePlayerId next;
                                  EvSetCurrentIndex (currentIndex s + 1)])
      by apply swap_history.
    assert (E2 : playerRef prev s2 = Some vp).
    { unfold s2. destruct (swap_frame next (currentIndex s + 1) s1)
        as (_ & _ & _ & Hr & _).
      rewrite Hr. unfold s1.
      rewrite await_playerRef_neq by (unfold next; apply not_eq_sym, other_neq).
      exact Ep. }
    set (r3 := await (stopOk o) prev stopAsync s2).
    assert (H3 : history (snd r3)
                 = history s2 ++ [EvCall prev stopAsync;
                                  EvSettled prev stopAsync (stopOk o)]).
    { unfold r3. rewrite await_history, E2. reflexivity. }
    unfold and_then. destruct (fst r3).
    + destruct (preloadOrUnload_extends o prev (currentIndex s + 1) (snd r3))
        as [rest Hrest].
      rewrite Hrest, H3, H2, H1.
      exists (EvSettled prev stopAsync (stopOk o) :: rest).
      repeat rewrite <- app_assoc. reflexivity.
    + rewrite log_history, H3, H2, H1.
      exists [EvSettled prev stopAsync (stopOk o); EvRejected].
      repeat rewrite <- app_assoc. reflexivity.
  - rewrite and_then_rejected by (rewrite await_fst, En; exact Hplay).
    rewrite log_history, await_history, En, Hplay, <- app_assoc.
    reflexivity.
Qed.

(** The theorem at a playlist of three clips, first advance. *)
Lemma advance_order_witness :
  (exists rest,
     history (handleTap all_ok (showing_first clips3)) =
     [EvCall Player1 playAsync; EvSettled Player1 playAsync true;
      EvSetActivePlayerId Player1; EvSetCurrentIndex 1;
      EvCall Player0 stopAsync] ++ rest)
  /\ history (handleTap (mkOutcomes false true true true)
                        (showing_first clips3))
     = [EvCall Player1 playAsync; EvSettled Player1 playAsync false;
        EvRejected].
Proof.
  assert (H1 : currentIndex (showing_first clips3) + 1
               < length (playlist (showing_first clips3)))
    by (cbn; lia).
  assert (HA : playerARef (showing_first clips3) <> None)
    by (cbn; discriminate).
  assert (HB : playerBRef (showing_first clips3) <> None)
    by (cbn; discriminate).
  split.
  - exact (proj1 (advance_order all_ok (showing_first clips3) H1 HA HB)
                 eq_refl).
  - exact (proj2 (advance_order (mkOutcomes false true true true)
                                (showing_first clips3) H1 HA HB)
                 eq_refl).
Defined.

Lemma calls_app (h1 h2 : list Event) : calls (h1 ++ h2) = calls h1 ++ calls h2.
Proof. apply flat_map_app. Qed.

Lemma count_app (f : Event -> bool) (h1 h2 : list Event) :
  length (filter f (h1 ++ h2)) = length (filter f h1) + length (filter f h2).
Proof. rewrite filter_app, length_app. reflexivity. Qed.

(* ------------------------------------------------------------------ *)
(** * The tap on the last clip *)

(** C5.  When the clip on screen is the last one ([currentIndex + 1] is
    not a position of the playlist), a tap invokes [onExit], which makes
    [App] leave the player, and does nothing else: no command is issued
    to either player, and [currentIndex], [activePlayerId] and both
    players are as before.  The same holds for the tap seen as a step of
    the session with other calls in flight.  A playlist of one clip is
    the case [currentIndex = 0]. *)
Theorem tap_on_last_clip (o : Outcomes) (s : Session) :
  length (playlist s) <= currentIndex s + 1 ->
  touchable s = true ->
  let s' := press o s in
  step Tap s = Some s'
  /\ isPlaying s' = false
  /\ touchable s' = false
  /\ history s' = history s ++ [EvOnExit]
  /\ calls (history s') = calls (history s)
  /\ currentIndex s' = currentIndex s
  /\ activePlayerId s' = activePlayerId s
  /\ playerARef s' = playerARef s
  /\ playerBRef s' = playerBRef s
  /\ pendingTaps s' = pendingTaps s.
Proof.
  intros Hlast Htouch s'. subst s'.
  unfold press, step, tap. rewrite Htouch.
  rewrite (handleTap_exit o s Hlast), (leb_next_true s Hlast).
  repeat split.
  cbn [history onExit log]. rewrite calls_app. cbn. apply app_nil_r.
Qed.

Lemma tap_on_last_clip_witness :
  let s' := press all_ok (showing_first clips1) in
  step Tap (showing_first clips1) = Some s'
  /\ isPlaying s' = false
  /\ touchable s' = false
  /\ history s' = history (showing_first clips1) ++ [EvOnExit]
  /\ calls (history s') = calls (history (showing_first clips1))
  /\ currentIndex s' = currentIndex (showing_first clips1)
  /\ activePlayerId s' = activePlayerId (showing_first clips1)
  /\ playerARef s' = playerARef (showing_first clips1)
  /\ playerBRef s' = playerBRef (showing_first clips1)
  /\ pendingTaps s' = pendingTaps (showing_first clips1).
Proof.
  apply (tap_on_last_clip all_ok (showing_first clips1)).
  - cbn. lia.
  - reflexivity.
Defined.

(* ------------------------------------------------------------------ *)
(** * An advance whose [playAsync] rejects *)

Lemma await_rejected_play_playerRef (p q : PlayerId) (s : Session) :
  playerRef q (snd (await false p playAsync s)) = playerRef q s.
Proof.
  unfold await, start, finish.
  destruct s as [pl ci rdy lp act [a|] [b|] playing ts h];
    destruct p, q; reflexivity.
Qed.


(** C3, as stated, fails: with two clips and a [playAsync] that rejects,
    [handleTap] issues a single [playAsync] and stops; no second attempt
    is made. *)
Lemma retries_once_counterexample :
  ~ retries_once (mkOutcomes false true true true) (showing_first clips2).
Proof.
  intro H. specialize (H eq_refl). vm_compute in H. discriminate H.
Qed.

(** C3, amended.  When the [playAsync] on the standby player rejects,
    [handleTap] does not try again: the advance consists of that one call,
    its rejection, and the rejection of [handleTap]'s own promise, once.
    [currentIndex] and [activePlayerId] are unchanged, no [stopAsync],
    [loadAsync] or [unloadAsync] is issued, both players are as they were
    (the active one is still playing), and [onExit] is not invoked. *)
Theorem rejected_play_aborts (o : Outcomes) (s : Session) :
  currentIndex s + 1 < length (playlist s) ->
  playerRef (other (activePlayerId s)) s <> None ->
  playOk o = false ->
  let next := other (activePlayerId s) in
  let s' := handleTap o s in
  history s'
  = history s ++ [EvCall next playAsync; EvSettled next playAsync false;
                  EvRejected]
  /\ playCalls (history s') = playCalls (history s) + 1
  /\ rejections (history s') = rejections (history s) + 1
  /\ exits (history s') = exits (history s)
  /\ currentIndex s' = currentIndex s
  /\ activePlayerId s' = activePlayerId s
  /\ playerARef s' = playerARef s
  /\ playerBRef s' = playerBRef s
  /\ isPlaying s' = isPlaying s.
Proof.
  intros Hnext Hmounted Hplay next s'. subst s'.
  rewrite (handleTap_advance o s Hnext). fold next. fold next in Hmounted.
  destruct (playerRef next s) as [vn|] eqn:En; [clear Hmounted | congruence].
  rewrite and_then_rejected by (rewrite await_fst, En; exact Hplay).
  rewrite Hplay.
  assert (Hh : history (log EvRejected (snd (await false next playAsync s)))
               = history s ++ [EvCall next playAsync;
                               EvSettled next playAsync false; EvRejected]).
  { rewrite log_history, await_history, En, <- app_assoc. reflexivity. }
  destruct (await_frame false next playAsync s)
    as (_ & Hc & Ha & _ & Hp & _).
  split; [exact Hh|].
  unfold playCalls, rejections, exits. rewrite Hh, !count_app.
  repeat split; try exact Hc; try exact Ha; try exact Hp.
  - cbn. lia.
  - exact (await_rejected_play_playerRef next Player0 s).
  - exact (await_rejected_play_playerRef next Player1 s).
Qed.

Lemma rejected_play_aborts_witness :
  let s := showing_first clips2 in
  let s' := handleTap (mkOutcomes false true true true) s in
  history s'
  = history s ++ [EvCall Player1 playAsync; EvSettled Player1 playAsync false;
                  EvRejected]
  /\ playCalls (history s') = playCalls (history s) + 1
  /\ rejections (history s') = rejections (history s) + 1
  /\ exits (history s') = exits (history s)
  /\ currentIndex s' = currentIndex s
  /\ activePlayerId s' = activePlayerId s
  /\ playerARef s' = playerARef s
  /\ playerBRef s' = playerBRef s
  /\ isPlaying s' = isPlaying s.
Proof.
  apply (rejected_play_aborts (mkOutcomes false true true true)
                              (showing_first clips2)).
  - cbn. lia.
  - cbn. discriminate.
  - reflexivity.
Defined.

(* ------------------------------------------------------------------ *)
(** * An advance whose [playAsync] resolves *)

Lemma afterStop_spec (o : Outcomes) (s : Session) (vn vp : SurfaceState) :
  currentIndex s + 1 < length (playlist s) ->
  playerRef (other (activePlayerId s)) s = Some vn ->
  playerRef (activePlayerId s) s = Some vp ->
  playOk o = true ->
  let next := other (activePlayerId s) in
  let prev := activePlayerId s in
  let s3 := afterStop o s in
  handleTap o s
  = (if stopOk o then preloadOrUnload o prev (currentIndex s + 1) s3
     else log EvRejected s3)
  /\ history s3
     = history s
         ++ [EvCall next playAsync; EvSettled next playAsync true;
             EvSetActivePlayerId next; EvSetCurrentIndex (currentIndex s + 1);
             EvCall prev stopAsync; EvSettled prev stopAsync (stopOk o)]
  /\ playlist s3 = playlist s
  /\ currentIndex s3 = currentIndex s + 1
  /\ activePlayerId s3 = next
  /\ isReady s3 = isReady s
  /\ isPlaying s3 = isPlaying s
  /\ pendingTaps s3 = pendingTaps s
  /\ playerRef next s3 = Some (settle playAsync true vn)
  /\ playerRef prev s3 = Some (settle stopAsync (stopOk o) (issue stopAsync vp)).
Proof.
  intros Hnext En Ep Hplay next prev s3.
  assert (Hne : prev <> next) by (unfold next; apply not_eq_sym, other_neq).
  assert (Hne' : next <> prev) by (apply not_eq_sym, Hne).
  fold next in En. fold prev in Ep.
  set (s1 := snd (await (playOk o) next playAsync s)).
  set (s2 := swap next (currentIndex s + 1) s1).
  assert (Hs3 : s3 = snd (await (stopOk o) prev stopAsync s2)) by reflexivity.
  destruct (await_frame (playOk o) next playAsync s)
    as (A1 & A2 & A3 & A4 & A5 & A6 & A7). fold s1 in A1, A2, A3, A4, A5, A6, A7.
  destruct (swap_frame next (currentIndex s + 1) s1)
    as (B1 & B2 & B3 & B4 & B5 & B6 & B7).
  fold s2 in B1, B2, B3, B4, B5, B6, B7.
  destruct (await_frame (stopOk o) prev stopAsync s2)
    as (C1 & C2 & C3 & C4 & C5 & C6 & C7).
  rewrite <- Hs3 in C1, C2, C3, C4, C5, C6, C7.
  assert (E1n : playerRef next s1 = Some (settle playAsync true vn)).
  { unfold s1. rewrite await_playerRef_same, En, Hplay. reflexivity. }
  assert (E1p : playerRef prev s1 = Some vp).
  { unfold s1. rewrite await_playerRef_neq by exact Hne. exact Ep. }
  assert (E2p : playerRef prev s2 = Some vp) by (rewrite B4; exact E1p).
  split.
  { rewrite (handleTap_advance o s Hnext). fold next prev.
    rewrite and_then_ok by (rewrite await_fst, En; exact Hplay).
    fold s1. fold s2. unfold and_then.
    rewrite await_fst, E2p, <- Hs3. reflexivity. }
  split.
  { rewrite Hs3, await_history, E2p. unfold s2. rewrite swap_history.
    unfold s1. rewrite await_history, En, Hplay.
    repeat rewrite <- app_assoc. reflexivity. }
  repeat split; try congruence.
  - rewrite Hs3, await_playerRef_neq by exact Hne'.
    rewrite B4. exact E1n.
  - rewrite Hs3, await_playerRef_same, E2p. reflexivity.
Qed.

(** The last [await] when there is a clip after the next one. *)
Lemma preloadOrUnload_load (o : Outcomes) (prev : PlayerId) (ni : nat)
      (s3 : Session) (v : VideoStep) (vp : SurfaceState) :
  ni + 1 < length (playlist s3) ->
  nth_error (playlist s3) (ni + 1) = Some v ->
  playerRef prev s3 = Some vp ->
  let s' := preloadOrUnload o prev ni s3 in
  history s'
  = history s3
      ++ [EvCall prev (loadAsync (uri v) false);
          EvSettled prev (loadAsync (uri v) false) (loadOk o)]
      ++ (if loadOk o then [] else [EvRejected])
  /\ (loadOk o = true ->
      playerRef prev s' = Some (mkSurface (Some (uri v)) Ready)).
Proof.
  intros Hfut Ev Ep s'. subst s'. unfold preloadOrUnload.
  replace (ni + 1 <? length (playlist s3)) with true
    by (symmetry; apply Nat.ltb_lt; exact Hfut).
  rewrite Ev. unfold and_then. rewrite await_fst, Ep.
  destruct (loadOk o).
  - rewrite await_history, Ep, await_playerRef_same, Ep.
    split; [|intros _; reflexivity].
    repeat rewrite <- app_assoc. reflexivity.
  - rewrite log_history, await_history, Ep.
    split; [|discriminate].
    repeat rewrite <- app_assoc. reflexivity.
Qed.

(** The last [await] when the next clip is the last one. *)
Lemma preloadOrUnload_unload (o : Outcomes) (prev : PlayerId) (ni : nat)
      (s3 : Session) (vp : SurfaceState) :
  length (playlist s3) <= ni + 1 ->
  playerRef prev s3 = Some vp ->
  let s' := preloadOrUnload o prev ni s3 in
  history s'
  = history s3
      ++ [EvCall prev unloadAsync; EvSettled prev unloadAsync (unloadOk o)]
      ++ (if unloadOk o then [] else [EvRejected])
  /\ (unloadOk o = true -> playerRef prev s' = Some (mkSurface None Empty)).
Proof.
  intros Hlast Ep s'. subst s'. unfold preloadOrUnload.
  replace (ni + 1 <? length (playlist s3)) with false
    by (symmetry; apply Nat.ltb_ge; exact Hlast).
  unfold and_then. rewrite await_fst, Ep.
  destruct (unloadOk o).
  - rewrite await_history, Ep, await_playerRef_same, Ep.
    split; [|intros _; reflexivity].
    repeat rewrite <- app_assoc. reflexivity.
  - rewrite log_history, await_history, Ep.
    split; [|discriminate].
    repeat rewrite <- app_assoc. reflexivity.
Qed.

(* ------------------------------------------------------------------ *)
(** * Preloading the clip after the next one *)



(* ------------------------------------------------------------------ *)
(** * What an advance does to the hooks, whatever the refs hold *)

Lemma silent_exits (h l : list Event) :
  silent l -> exits (h ++ l) = exits h.
Proof.
  intro H. unfold exits. rewrite count_app.
  replace (filter isExit l) with (@nil Event); [cbn; lia|].
  induction H as [|e l He _ IH]; [reflexivity|].
  cbn. rewrite He. exact IH.
Qed.

Lemma await_silent (ok : bool) (p : PlayerId) (c : Cmd) (s : Session) :
  exists l, history (snd (await ok p c s)) = history s ++ l /\ silent l.
Proof.
  rewrite await_history. eexists; split; [reflexivity|].
  destruct (playerRef p s); repeat constructor.
Qed.

Lemma and_then_silent (r : bool * Session) (k : Session -> Session)
      (h : list Event) :
  (exists l, history (snd r) = h ++ l /\ silent l) ->
  (forall s, exists l, history (k s) = history s ++ l /\ silent l) ->
  exists l, history (and_then r k) = h ++ l /\ silent l.
Proof.
  intros (l1 & H1 & S1) Hk. unfold and_then. destruct (fst r).
  - destruct (Hk (snd r)) as (l2 & H2 & S2).
    exists (l1 ++ l2). rewrite H2, H1, app_assoc. split; [reflexivity|].
    apply Forall_app; split; assumption.
  - exists (l1 ++ [EvRejected]). rewrite log_history, H1, app_assoc.
    split; [reflexivity|].
    apply Forall_app; split; [assumption | repeat constructor].
Qed.

Lemma preloadOrUnload_silent (o : Outcomes) (prev : PlayerId) (ni : nat)
      (s3 : Session) :
  exists l,
    history (preloadOrUnload o prev ni s3) = history s3 ++ l /\ silent l.
Proof.
  assert (Hid : forall s : Session,
             exists l, history s = history s ++ l /\ silent l).
  { intro s. exists []. rewrite app_nil_r. split; [reflexivity|constructor]. }
  unfold preloadOrUnload.
  destruct (ni + 1 <? length (playlist s3)).
  - destruct (nth_error (playlist s3) (ni + 1)).
    + apply and_then_silent; [apply await_silent | exact Hid].
    + exists [EvRejected]. split; [reflexivity | repeat constructor].
  - apply and_then_silent; [apply await_silent | exact Hid].
Qed.

(** An advance never invokes [onExit]. *)
Lemma handleTap_advance_silent (o : Outcomes) (s : Session) :
  currentIndex s + 1 < length (playlist s) ->
  exists l, history (handleTap o s) = history s ++ l /\ silent l.
Proof.
  intro Hnext. rewrite (handleTap_advance o s Hnext).
  apply and_then_silent; [apply await_silent|].
  intro s1. apply and_then_silent; [|apply preloadOrUnload_silent].
  destruct (await_silent (stopOk o) (activePlayerId s) stopAsync
              (swap (other (activePlayerId s)) (currentIndex s + 1) s1))
    as (l & Hl & Sl).
  exists ([EvSetActivePlayerId (other (activePlayerId s));
           EvSetCurrentIndex (currentIndex s + 1)] ++ l).
  rewrite Hl, swap_history, <- app_assoc. split; [reflexivity|].
  repeat constructor. exact Sl.
Qed.

(** An advance whose [playAsync] did not reject (or was skipped because
    the ref was null) sets the two hooks; nothing later in the call
    touches them again. *)
Lemma handleTap_played_hooks (o : Outcomes) (s : Session) :
  currentIndex s + 1 < length (playlist s) ->
  fst (await (playOk o) (other (activePlayerId s)) playAsync s) = true ->
  let s' := handleTap o s in
  playlist s' = playlist s
  /\ currentIndex s' = currentIndex s + 1
  /\ activePlayerId s' = other (activePlayerId s)
  /\ isReady s' = isReady s
  /\ isPlaying s' = isPlaying s
  /\ pendingTaps s' = pendingTaps s.
Proof.
  intros Hnext Hok s'. subst s'.
  rewrite (handleTap_advance o s Hnext).
  rewrite and_then_ok by exact Hok.
  set (s1 := snd (await (playOk o) (other (activePlayerId s)) playAsync s)).
  set (s2 := swap (other (activePlayerId s)) (currentIndex s + 1) s1).
  set (r3 := await (stopOk o) (activePlayerId s) stopAsync s2).
  assert (H3 : same_hooks s2
                 (and_then r3
                    (fun s3 => preloadOrUnload o (activePlayerId s)
                                               (currentIndex s + 1) s3))).
  { unfold and_then. destruct (fst r3).
    - eapply same_hooks_trans;
        [apply same_hooks_await | apply same_hooks_preloadOrUnload].
    - eapply same_hooks_trans; [apply same_hooks_await | apply same_hooks_log]. }
  destruct H3 as (D1 & D2 & D3 & D4 & D5 & _ & D7).
  destruct (swap_frame (other (activePlayerId s)) (currentIndex s + 1) s1)
    as (B1 & B2 & B3 & _ & B5 & B6 & B7).
  fold s2 in B1, B2, B3, B5, B6, B7.
  destruct (await_frame (playOk o) (other (activePlayerId s)) playAsync s)
    as (A1 & _ & _ & A4 & A5 & _ & A7).
  fold s1 in A1, A4, A5, A7.
  repeat split; congruence.
Qed.

(** An advance whose [playAsync] rejected leaves the hooks as they
    were. *)
Lemma handleTap_rejected_hooks (o : Outcomes) (s : Session) :
  currentIndex s + 1 < length (playlist s) ->
  fst (await (playOk o) (other (activePlayerId s)) playAsync s) = false ->
  same_hooks s (handleTap o s).
Proof.
  intros Hnext Hko. rewrite (handleTap_advance o s Hnext).
  rewrite and_then_rejected by exact Hko.
  eapply same_hooks_trans; [apply same_hooks_await | apply same_hooks_log].
Qed.

(* ------------------------------------------------------------------ *)
(** * How many taps a session takes *)

Lemma await_fst_ok (p : PlayerId) (c : Cmd) (s : Session) :
  fst (await true p c s) = true.
Proof. rewrite await_fst. destruct (playerRef p s); reflexivity. Qed.

Lemma onExit_exits (s : Session) :
  exits (history (onExit s)) = exits (history s) + 1.
Proof. unfold exits. cbn [onExit log history]. rewrite count_app. reflexivity. Qed.

Lemma presses_untouchable (os : list Outcomes) (s : Session) :
  touchable s = false -> presses os s = s.
Proof.
  intro H. induction os as [|o os IH]; [reflexivity|].
  cbn [presses]. unfold press. rewrite H. exact IH.
Qed.

(** A tap with a next clip whose [playAsync] resolves moves the session to
    the next clip and leaves it on screen. *)
Lemma press_advance (o : Outcomes) (s : Session) :
  touchable s = true ->
  currentIndex s + 1 < length (playlist s) ->
  playOk o = true ->
  let s' := press o s in
  touchable s' = true
  /\ playlist s' = playlist s
  /\ currentIndex s' = currentIndex s + 1
  /\ activePlayerId s' = other (activePlayerId s)
  /\ exits (history s') = exits (history s).
Proof.
  intros Ht Hnext Hplay s'. subst s'. unfold press. rewrite Ht.
  assert (Hok : fst (await (playOk o) (other (activePlayerId s)) playAsync s)
                = true) by (rewrite Hplay; apply await_fst_ok).
  destruct (handleTap_played_hooks o s Hnext Hok)
    as (H1 & H2 & H3 & H4 & H5 & _).
  destruct (handleTap_advance_silent o s Hnext) as (l & Hl & Sl).
  repeat split; try assumption.
  - unfold touchable in *. rewrite H4, H5. exact Ht.
  - rewrite Hl. apply silent_exits, Sl.
Qed.

Lemma press_exit (o : Outcomes) (s : Session) :
  touchable s = true ->
  length (playlist s) <= currentIndex s + 1 ->
  press o s = onExit s.
Proof.
  intros Ht Hlast. unfold press. rewrite Ht. apply handleTap_exit, Hlast.
Qed.

Lemma onExit_untouchable (s : Session) : touchable (onExit s) = false.
Proof. reflexivity. Qed.

Lemma touchable_isPlaying (s : Session) :
  touchable s = true -> isPlaying s = true.
Proof. unfold touchable. intro H. apply andb_prop in H. apply H. Qed.

(** From any clip of the playlist: taps whose [playAsync] resolves walk
    the cursor up one clip at a time, and the tap on the last clip
    exits. *)
Lemma presses_progress (os : list Outcomes) :
  forall s : Session,
    touchable s = true ->
    Forall (fun o => playOk o = true) os ->
    currentIndex s < length (playlist s) ->
    let s' := presses os s in
    let left := length (playlist s) - currentIndex s in
    (length os < left ->
     isPlaying s' = true
     /\ exits (history s') = exits (history s)
     /\ currentIndex s' = currentIndex s + length os)
    /\ (left <= length os ->
        isPlaying s' = false
        /\ exits (history s') = exits (history s) + 1
        /\ currentIndex s' = length (playlist s) - 1).
Proof.
  induction os as [|o os IH]; intros s Ht Hall Hin s' left; subst s' left.
  - cbn [presses length]. split; [|lia].
    intros _. repeat split; [apply touchable_isPlaying, Ht | lia].
  - cbn [presses length].
    inversion Hall as [|o' os' Ho Hos]; subst.
    destruct (Nat.lt_ge_cases (currentIndex s + 1) (length (playlist s)))
      as [Hnext | Hlast].
    + destruct (press_advance o s Ht Hnext Ho) as (T1 & T2 & T3 & _ & T5).
      assert (Hin1 : currentIndex (press o s) < length (playlist (press o s)))
        by (rewrite T2, T3; exact Hnext).
      destruct (IH (press o s) T1 Hos Hin1) as (IH1 & IH2).
      rewrite T2, T3, T5 in IH1, IH2.
      split; intro Hlen.
      * destruct IH1 as (R1 & R2 & R3); [lia|].
        repeat split; [exact R1 | exact R2 | lia].
      * destruct IH2 as (R1 & R2 & R3); [lia|].
        repeat split; [exact R1 | exact R2 | lia].
    + rewrite (press_exit o s Ht Hlast).
      rewrite (presses_untouchable os _ (onExit_untouchable s)).
      split; [lia|]. intros _.
      repeat split; [apply onExit_exits | cbn; lia].
Qed.

(** Whatever the outcomes, [onExit] is invoked at most once more. *)
Lemma presses_exits_le (os : list Outcomes) :
  forall s : Session,
    exits (history (presses os s)) <= exits (history s) + 1.
Proof.
  induction os as [|o os IH]; intro s; [cbn; lia|].
  cbn [presses]. unfold press.
  destruct (touchable s) eqn:Ht.
  - destruct (Nat.lt_ge_cases (currentIndex s + 1) (length (playlist s)))
      as [Hnext | Hlast].
    + destruct (handleTap_advance_silent o s Hnext) as (l & Hl & Sl).
      specialize (IH (handleTap o s)).
      rewrite Hl, silent_exits in IH by exact Sl. exact IH.
    + rewrite (handleTap_exit o s Hlast).
      rewrite (presses_untouchable os _ (onExit_untouchable s)).
      rewrite onExit_exits. lia.
  - apply IH.
Qed.

(** C2, as stated, fails, on sessions as [App] starts them: with one clip
    no tap at all (N-1 = 0) leaves the player on screen, and with two
    clips one tap (N-1 = 1), run to its end, only moves to the second
    clip. *)
Lemma finished_after_counterexample :
  ~ finished_after (length clips1 - 1) (opened clips1)
  /\ ~ finished_after (length clips2 - 1) (opened clips2).
Proof.
  split; intro H; vm_compute in H; discriminate H.
Qed.

(* ------------------------------------------------------------------ *)
(** * The session as steps: basic facts *)

Lemma start_frame (p : PlayerId) (c : Cmd) (s : Session) :
  same_hooks s (snd (start p c s)).
Proof.
  unfold start. destruct (playerRef p s); [|apply same_hooks_refl].
  destruct p; repeat split.
Qed.

Lemma finish_frame (p : PlayerId) (c : Cmd) (ok : bool) (s : Session) :
  same_hooks s (finish p c ok s).
Proof.
  unfold finish. destruct (playerRef p s); [|repeat split].
  destruct p; repeat split.
Qed.

Lemma start_history (p : PlayerId) (c : Cmd) (s : Session) :
  history (snd (start p c s))
  = history s ++ match playerRef p s with
                 | Some _ => [EvCall p c]
                 | None => []
                 end.
Proof.
  unfold start. destruct (playerRef p s); [|symmetry; apply app_nil_r].
  destruct p; reflexivity.
Qed.

Lemma start_fst (p : PlayerId) (c : Cmd) (s : Session) :
  fst (start p c s)
  = match playerRef p s with Some _ => Some (p, c) | None => None end.
Proof. unfold start. destruct (playerRef p s); reflexivity. Qed.

Section TaskLists.
Variable P : Task -> Prop.

Lemma Forall_put (i : nat) (t : Task) (l : list Task) :
  Forall P l -> P t -> Forall P (firstn i l ++ t :: skipn (S i) l).
Proof.
  intros Hl Ht. revert i.
  induction Hl as [|x l Hx Hl IH]; intro i.
  - rewrite firstn_nil, skipn_nil. cbn. constructor; [exact Ht|constructor].
  - destruct i as [|i]; cbn [firstn skipn app].
    + constructor; [exact Ht|].
      destruct l; [constructor | exact Hl].
    + constructor; [exact Hx | apply IH].
Qed.

Lemma Forall_drop (i : nat) (l : list Task) :
  Forall P l -> Forall P (firstn i l ++ skipn (S i) l).
Proof.
  intro Hl. revert i.
  induction Hl as [|x l Hx Hl IH]; intro i.
  - rewrite firstn_nil, skipn_nil. constructor.
  - destruct i as [|i]; cbn [firstn skipn app].
    + exact Hl.
    + constructor; [exact Hx | apply IH].
Qed.

Lemma Forall_nth_error (i : nat) (t : Task) (l : list Task) :
  Forall P l -> nth_error l i = Some t -> P t.
Proof.
  intros Hl Hi. rewrite Forall_forall in Hl.
  apply Hl. eapply nth_error_In. exact Hi.
Qed.
End TaskLists.

(* ------------------------------------------------------------------ *)
(** * The active player follows the parity of the cursor *)

Lemma next_parity (p : PlayerId) (n : nat) :
  player_number p = n mod 2 -> player_number (other p) = (n + 1) mod 2.
Proof.
  intro H. rewrite Nat.Div0.add_mod, <- H.
  destruct p; reflexivity.
Qed.

Lemma coherent_same_hooks (s s' : Session) :
  same_hooks s s' -> coherent s -> coherent s'.
Proof.
  intros (_ & H2 & H3 & _ & _ & _ & H7) (Hp & Hts).
  unfold coherent, parity. rewrite H2, H3, H7. split; assumption.
Qed.

Lemma coherent_tap (s : Session) : coherent s -> coherent (tap s).
Proof.
  intros (Hp & Hts). unfold tap.
  destruct (length (playlist s) <=? currentIndex s + 1).
  - split; assumption.
  - destruct (start_frame (other (activePlayerId s)) playAsync s)
      as (_ & H2 & H3 & _ & _ & _ & H7).
    split.
    + unfold parity. cbn [setPendingTaps currentIndex activePlayerId].
      rewrite H2, H3. exact Hp.
    + cbn [setPendingTaps pendingTaps]. rewrite H7.
      apply Forall_app. split; [exact Hts|].
      constructor; [|constructor].
      unfold task_parity, suspended. cbn [nextActiveId nextIndex].
      apply next_parity, Hp.
Qed.

Lemma coherent_putTask (i : nat) (t : Task) (s : Session) :
  coherent s -> task_parity t -> coherent (putTask i t s).
Proof.
  intros (Hp & Hts) Ht. split; [exact Hp|].
  cbn [putTask setPendingTaps pendingTaps]. apply Forall_put; assumption.
Qed.

Lemma coherent_dropTask (i : nat) (s : Session) :
  coherent s -> coherent (dropTask i s).
Proof.
  intros (Hp & Hts). split; [exact Hp|].
  cbn [dropTask setPendingTaps pendingTaps]. apply Forall_drop; assumption.
Qed.

Lemma coherent_swap (t : Task) (s : Session) :
  task_parity t ->
  Forall task_parity (pendingTaps s) ->
  coherent (swap (nextActiveId t) (nextIndex t) s).
Proof.
  intros Ht Hts.
  destruct (swap_frame (nextActiveId t) (nextIndex t) s)
    as (_ & H2 & H3 & _ & _ & _ & H7).
  unfold coherent, parity. rewrite H2, H3, H7. split; assumption.
Qed.

Lemma coherent_continue (i : nat) (t : Task) (ok : bool) (s : Session) :
  coherent s -> task_parity t -> coherent (continue i t ok s).
Proof.
  intros Hs Ht. unfold continue.
  destruct ok.
  2:{ eapply coherent_same_hooks;
        [apply same_hooks_log | apply coherent_dropTask, Hs]. }
  destruct (awaiting t).
  - apply coherent_putTask; [|exact Ht].
    eapply coherent_same_hooks; [apply start_frame|].
    apply coherent_swap; [exact Ht | apply Hs].
  - destruct (nextIndex t + 1 <? length (playlist s)).
    + destruct (nth_error (playlist s) (nextIndex t + 1)).
      * apply coherent_putTask; [|exact Ht].
        eapply coherent_same_hooks; [apply start_frame | exact Hs].
      * eapply coherent_same_hooks;
          [apply same_hooks_log | apply coherent_dropTask, Hs].
    + apply coherent_putTask; [|exact Ht].
      eapply coherent_same_hooks; [apply start_frame | exact Hs].
  - apply coherent_dropTask, Hs.
  - apply coherent_dropTask, Hs.
Qed.

Lemma coherent_step (l : Label) (s s' : Session) :
  step l s = Some s' -> coherent s -> coherent s'.
Proof.
  intros Hstep Hs. destruct l as [|i ok|i]; cbn [step] in Hstep.
  - destruct (touchable s); [|discriminate].
    injection Hstep as <-. apply coherent_tap, Hs.
  - destruct (nth_error (pendingTaps s) i) as [t|] eqn:Et; [|discriminate].
    destruct (call t) as [[p c]|]; [|discriminate].
    destruct (promise t); [|discriminate].
    injection Hstep as <-.
    apply coherent_putTask.
    + eapply coherent_same_hooks; [apply finish_frame | exact Hs].
    + exact (Forall_nth_error task_parity i t _ (proj2 Hs) Et).
  - destruct (nth_error (pendingTaps s) i) as [t|] eqn:Et; [|discriminate].
    destruct (promise t) as [|ok]; [discriminate|].
    injection Hstep as <-.
    apply coherent_continue; [exact Hs|].
    exact (Forall_nth_error task_parity i t _ (proj2 Hs) Et).
Qed.

Lemma coherent_run (ls : list Label) :
  forall s s' : Session, run ls s = Some s' -> coherent s -> coherent s'.
Proof.
  induction ls as [|l ls IH]; intros s s' Hrun Hs; cbn [run] in Hrun.
  - injection Hrun as <-. exact Hs.
  - destruct (step l s) as [s1|] eqn:E1; [|discriminate].
    apply (IH s1 s' Hrun). exact (coherent_step l s s1 E1 Hs).
Qed.

Lemma parity_press (o : Outcomes) (s : Session) :
  parity s -> parity (press o s).
Proof.
  intro Hp. unfold press. destruct (touchable s); [|exact Hp].
  destruct (Nat.lt_ge_cases (currentIndex s + 1) (length (playlist s)))
    as [Hnext | Hlast].
  - destruct (fst (await (playOk o) (other (activePlayerId s)) playAsync s))
      eqn:Hok.
    + destruct (handleTap_played_hooks o s Hnext Hok) as (_ & H2 & H3 & _).
      unfold parity. rewrite H2, H3. apply next_parity, Hp.
    + destruct (handleTap_rejected_hooks o s Hnext Hok) as (_ & H2 & H3 & _).
      unfold parity. rewrite H2, H3. exact Hp.
  - rewrite (handleTap_exit o s Hlast). exact Hp.
Qed.

Lemma parity_presses (os : list Outcomes) :
  forall s : Session, parity s -> parity (presses os s).
Proof.
  induction os as [|o os IH]; intros s Hp; [exact Hp|].
  cbn [presses]. apply IH, parity_press, Hp.
Qed.

(** C10.  A session starts with [currentIndex = 0], Player A active and
    nothing in flight.  In every state it can reach, by whole advances
    ([presses]) or by any interleaving of taps, completions and
    resumptions ([run]), [activePlayerId] equals [currentIndex] mod 2; and
    an advance whose [playAsync] resolves increments [currentIndex] by
    exactly 1 and toggles [activePlayerId]. *)
Theorem active_player_is_cursor_parity (s0 : Session) :
  currentIndex s0 = 0 ->
  activePlayerId s0 = Player0 ->
  pendingTaps s0 = [] ->
  (forall (ls : list Label) (s : Session),
      run ls s0 = Some s ->
      player_number (activePlayerId s) = currentIndex s mod 2)
  /\ (forall os : list Outcomes,
         player_number (activePlayerId (presses os s0))
         = currentIndex (presses os s0) mod 2)
  /\ (forall (o : Outcomes) (s : Session),
         touchable s = true ->
         currentIndex s + 1 < length (playlist s) ->
         playOk o = true ->
         currentIndex (press o s) = currentIndex s + 1
         /\ activePlayerId (press o s) = other (activePlayerId s)).
Proof.
  intros Hc Ha Hts.
  assert (H0 : coherent s0).
  { unfold coherent, parity. rewrite Hc, Ha, Hts. split; [reflexivity|constructor]. }
  split; [|split].
  - intros ls s Hrun. exact (proj1 (coherent_run ls s0 s Hrun H0)).
  - intro os. exact (parity_presses os s0 (proj1 H0)).
  - intros o s Ht Hnext Hplay.
    destruct (press_advance o s Ht Hnext Hplay) as (_ & _ & H3 & H4 & _).
    split; assumption.
Qed.

Lemma active_player_is_cursor_parity_witness :
  player_number (activePlayerId (presses [all_ok; all_ok]
                                         (showing_first clips3)))
  = currentIndex (presses [all_ok; all_ok] (showing_first clips3)) mod 2.
Proof.
  exact (proj1 (proj2 (active_player_is_cursor_parity
                         (showing_first clips3) eq_refl eq_refl eq_refl))
               [all_ok; all_ok]).
Defined.

(* ------------------------------------------------------------------ *)
(** * Taps while an advance is in flight *)

(** C4, as stated, fails: three clips, one tap whose [playAsync] has not
    settled yet; a second tap issues another [playAsync] and suspends a
    second call of [handleTap]. *)
Lemma tap_ignored_counterexample :
  advancing (tap (showing_first clips3))
  /\ ~ tap_ignored (tap (showing_first clips3)).
Proof.
  split.
  - vm_compute. discriminate.
  - intro H. destruct (H _ eq_refl) as [Hcalls _].
    vm_compute in Hcalls. discriminate Hcalls.
Qed.

(** The same session taken further: the first call has swapped and is
    waiting for its [stopAsync]; a second tap, its [playAsync] resolving,
    moves the cursor a second time while the first call is still in
    flight. *)
Example second_advance_overlaps_first :
  exists s,
    run [Tap; Complete 0 true; Resume 0; Tap; Complete 1 true; Resume 1]
        (showing_first clips3) = Some s
    /\ currentIndex s = 2
    /\ option_map awaiting (nth_error (pendingTaps s) 0) = Some AwaitStop
    /\ option_map promise (nth_error (pendingTaps s) 0) = Some Pending.
Proof. eexists. vm_compute. repeat split. Qed.

(** Two taps before the first [playAsync] settles: both calls set the
    same index, so the cursor moves once. *)
Example two_taps_before_swap :
  exists s,
    run [Tap; Tap; Complete 0 true; Resume 0; Complete 1 true; Resume 1]
        (showing_first clips3) = Some s
    /\ currentIndex s = 1
    /\ activePlayerId s = Player1.
Proof. eexists. vm_compute. repeat split. Qed.

Lemma continue_play_hooks (i : nat) (t : Task) (s : Session) :
  awaiting t = AwaitPlay ->
  currentIndex (continue i t true s) = nextIndex t
  /\ activePlayerId (continue i t true s) = nextActiveId t.
Proof.
  intro Ha. unfold continue. rewrite Ha.
  destruct (start_frame (other (nextActiveId t)) stopAsync
              (setCurrentIndex (nextIndex t)
                 (setActivePlayerId (nextActiveId t) s)))
    as (_ & H2 & H3 & _).
  cbn [putTask setPendingTaps currentIndex activePlayerId].
  rewrite H2, H3. split; reflexivity.
Qed.

(** C4, amended.  [handleTap] has no guard against a call that is still
    in flight.  Whatever is suspended, a tap on a shown player with a next
    clip starts a further call: it issues one more [playAsync], to the
    player opposite the active one, and suspends with
    [currentIndex + 1] as its target; the tap itself changes neither
    [currentIndex] nor [activePlayerId].  A call that resumes after its
    [playAsync] has resolved sets [currentIndex] and [activePlayerId] to
    the target it computed when it was tapped. *)
Theorem tap_while_advancing (s : Session) :
  touchable s = true ->
  currentIndex s + 1 < length (playlist s) ->
  playerRef (other (activePlayerId s)) s <> None ->
  let next := other (activePlayerId s) in
  (exists s' : Session,
      step Tap s = Some s'
      /\ calls (history s') = calls (history s) ++ [(next, playAsync)]
      /\ pendingTaps s'
         = pendingTaps s
             ++ [mkTask (currentIndex s + 1) next AwaitPlay
                        (Some (next, playAsync)) Pending]
      /\ currentIndex s' = currentIndex s
      /\ activePlayerId s' = activePlayerId s)
  /\ (forall (i : nat) (t : Task) (s' : Session),
         nth_error (pendingTaps s) i = Some t ->
         awaiting t = AwaitPlay ->
         promise t = Settled true ->
         step (Resume i) s = Some s' ->
         currentIndex s' = nextIndex t
         /\ activePlayerId s' = nextActiveId t).
Proof.
  intros Ht Hnext Hmounted next. split.
  - exists (tap s). cbn [step]. rewrite Ht. split; [reflexivity|].
    unfold tap. rewrite (leb_next_false s Hnext). fold next.
    fold next in Hmounted.
    destruct (start_frame next playAsync s)
      as (_ & H2 & H3 & _ & _ & _ & H7).
    cbn [setPendingTaps history pendingTaps currentIndex activePlayerId].
    rewrite start_history, start_fst, H7.
    destruct (playerRef next s) as [v|]; [|congruence].
    rewrite calls_app. repeat split; assumption.
  - intros i t s' Hi Ha Hp Hstep. cbn [step] in Hstep.
    rewrite Hi, Hp in Hstep. injection Hstep as <-.
    apply continue_play_hooks, Ha.
Qed.

Lemma tap_while_advancing_witness :
  exists s' : Session,
    step Tap (tap (showing_first clips3)) = Some s'
    /\ calls (history s')
       = calls (history (tap (showing_first clips3)))
           ++ [(Player1, playAsync)]
    /\ pendingTaps s'
       = pendingTaps (tap (showing_first clips3))
           ++ [mkTask 1 Player1 AwaitPlay (Some (Player1, playAsync)) Pending]
    /\ currentIndex s' = 0
    /\ activePlayerId s' = Player0.
Proof.
  refine (proj1 (tap_while_advancing (tap (showing_first clips3))
                   eq_refl _ _)).
  - cbn. lia.
  - cbn. discriminate.
Defined.

(* ------------------------------------------------------------------ *)
(** * Initialisation: what the timer and the loads leave alone *)

Lemma same_but_progress_refl (s : Session) : same_but_progress s s.
Proof. repeat split. Qed.

Lemma same_but_progress_trans (s1 s2 s3 : Session) :
  same_but_progress s1 s2 -> same_but_progress s2 s3 ->
  same_but_progress s1 s3.
Proof.
  unfold same_but_progress.
  intros (A1 & A2 & A3 & A4 & A5 & A6 & A7 & A8)
         (B1 & B2 & B3 & B4 & B5 & B6 & B7 & B8).
  repeat split; congruence.
Qed.

Lemma published_app (h1 h2 : list Event) :
  published (h1 ++ h2) = published h1 ++ published h2.
Proof. apply flat_map_app. Qed.

(** What the timer adds to the history is a list of progress values. *)
Lemma onInterval_spec (ts : Interval * Session) :
  same_but_progress (snd ts) (snd (onInterval ts))
  /\ exists l,
      history (snd (onInterval ts))
      = history (snd ts) ++ map EvSetLoadingProgress l.
Proof.
  unfold onInterval. destruct (cleared (fst ts)).
  - split; [apply same_but_progress_refl|].
    exists []. symmetry. apply app_nil_r.
  - split; [repeat split|].
    exists [progress (fst ts) + 10]. reflexivity.
Qed.

Lemma elapse_S (n : nat) (ts : Interval * Session) :
  elapse (S n) ts = onInterval (elapse n ts).
Proof. reflexivity. Qed.

Lemma elapse_spec (n : nat) (ts : Interval * Session) :
  same_but_progress (snd ts) (snd (elapse n ts))
  /\ exists l,
      history (snd (elapse n ts))
      = history (snd ts) ++ map EvSetLoadingProgress l.
Proof.
  induction n as [|n IH].
  - split; [apply same_but_progress_refl|].
    exists []. symmetry. apply app_nil_r.
  - rewrite elapse_S.
    destruct IH as (F & l1 & H1).
    destruct (onInterval_spec (elapse n ts)) as (F' & l2 & H2).
    split; [eapply same_but_progress_trans; eassumption|].
    exists (l1 ++ l2). rewrite H2, H1, map_app, app_assoc. reflexivity.
Qed.

Lemma elapse_cleared (n : nat) (ts : Interval * Session) :
  cleared (fst ts) = true -> elapse n ts = ts.
Proof.
  intro H. induction n as [|n IH]; [reflexivity|].
  rewrite elapse_S, IH.
  unfold onInterval. rewrite H. reflexivity.
Qed.

Lemma silent_progress (l : list nat) : silent (map EvSetLoadingProgress l).
Proof. induction l; constructor; [reflexivity | assumption]. Qed.

Lemma published_progress (l : list nat) :
  published (map EvSetLoadingProgress l) = l.
Proof. induction l as [|n l IH]; [reflexivity|]. cbn. f_equal. exact IH. Qed.

(* ------------------------------------------------------------------ *)
(** * The progress indicator *)

Lemma Sorted_ascending (l : list nat) : Sorted le l -> ascending l.
Proof.
  induction 1 as [|a l Hl IH Hd]; intros i p1 p2 H1 H2.
  - destruct i; discriminate.
  - destruct i as [|i].
    + cbn in H1, H2. injection H1 as <-.
      destruct Hd as [|b l' Hab]; [discriminate|].
      cbn in H2. injection H2 as <-. exact Hab.
    + exact (IH i p1 p2 H1 H2).
Qed.

Lemma Sorted_snoc (l : list nat) (x : nat) :
  Sorted le l -> Forall (fun n => n <= x) l -> Sorted le (l ++ [x]).
Proof.
  induction 1 as [|a l Hl IH Hd]; intro Hall.
  - repeat constructor.
  - inversion Hall as [|a' l' Ha Hl']; subst.
    cbn [app]. constructor; [apply IH, Hl'|].
    destruct Hd as [|b l' Hab]; constructor; assumption.
Qed.

Lemma ticking_onInterval (ts : Interval * Session) :
  ticking ts -> ticking (onInterval ts).
Proof.
  intros (Hs & Hall & H90 & H80). unfold onInterval.
  destruct (cleared (fst ts)) eqn:Hc;
    [unfold ticking; rewrite Hc; exact (conj Hs (conj Hall (conj H90 H80)))|].
  specialize (H80 eq_refl).
  unfold ticking. cbn [fst snd progress cleared setLoadingProgress log history].
  rewrite published_app. cbn [published flat_map progressOf app].
  split; [|split; [|split]].
  - apply Sorted_snoc; [exact Hs|].
    eapply Forall_impl; [|exact Hall]. cbn. intros; lia.
  - apply Forall_app. split.
    + eapply Forall_impl; [|exact Hall]. cbn. intros; lia.
    + repeat constructor.
  - lia.
  - intro H. apply Nat.ltb_ge in H. exact H.
Qed.

Lemma ticking_elapse (n : nat) (ts : Interval * Session) :
  ticking ts -> ticking (elapse n ts).
Proof.
  intro H. induction n as [|n IH]; [exact H|].
  rewrite elapse_S. apply ticking_onInterval, IH.
Qed.

(** Events that are not progress values do not disturb [ticking]. *)
Lemma ticking_history (t : Interval) (s s' : Session) :
  published (history s') = published (history s) ->
  ticking (t, s) -> ticking (t, s').
Proof.
  intros Hp (Hs & Hall & H). unfold ticking. cbn [fst snd] in *.
  rewrite Hp. exact (conj Hs (conj Hall H)).
Qed.

Lemma start_published (p : PlayerId) (c : Cmd) (s : Session) :
  published (history (snd (start p c s))) = published (history s).
Proof.
  rewrite start_history, published_app.
  destruct (playerRef p s); apply app_nil_r.
Qed.

Lemma finish_history (p : PlayerId) (c : Cmd) (ok : bool) (s : Session) :
  history (finish p c ok s) = history s ++ [EvSettled p c ok].
Proof.
  unfold finish. destruct (playerRef p s); [|reflexivity].
  destruct p; reflexivity.
Qed.

Lemma ticking_preload (p : PlayerId) (k n : nat) (ok : bool)
      (ts : Interval * Session) :
  ticking ts -> ticking (snd (preload p k n ok ts)).
Proof.
  intro H. unfold preload.
  destruct (playerRef p (snd ts)); [|exact H].
  destruct (nth_error (playlist (snd ts)) k) as [v|]; [|exact H].
  cbn [snd].
  set (ts1 := elapse n (fst ts, snd (start p (loadAsync (uri v) false) (snd ts)))).
  assert (H1 : ticking ts1).
  { apply ticking_elapse.
    apply (ticking_history (fst ts) (snd ts)); [apply start_published|].
    destruct ts; exact H. }
  apply (ticking_history (fst ts1) (snd ts1)); [|destruct ts1; exact H1].
  rewrite finish_history, published_app. apply app_nil_r.
Qed.

Lemma loading_refl (s : Session) : loading s s.
Proof.
  repeat split. exists []. split; [symmetry; apply app_nil_r | constructor].
Qed.

Lemma loading_trans (s1 s2 s3 : Session) :
  loading s1 s2 -> loading s2 s3 -> loading s1 s3.
Proof.
  intros (A1 & A2 & A3 & A4 & A5 & A6 & l1 & A7 & A8)
         (B1 & B2 & B3 & B4 & B5 & B6 & l2 & B7 & B8).
  repeat split; try congruence.
  exists (l1 ++ l2). rewrite B7, A7, app_assoc. split; [reflexivity|].
  apply Forall_app. split; assumption.
Qed.

Lemma loading_same_hooks (s s' : Session) (l : list Event) :
  same_hooks s s' -> history s' = history s ++ l -> silent l ->
  loading s s'.
Proof.
  intros (H1 & H2 & H3 & H4 & H5 & _ & H7) Hh Hl.
  repeat split; try assumption. exists l. split; assumption.
Qed.

Lemma loading_start (p : PlayerId) (c : Cmd) (s : Session) :
  loading s (snd (start p c s)).
Proof.
  eapply loading_same_hooks;
    [apply start_frame | apply start_history|].
  destruct (playerRef p s); repeat constructor.
Qed.

Lemma loading_finish (p : PlayerId) (c : Cmd) (ok : bool) (s : Session) :
  loading s (finish p c ok s).
Proof.
  eapply loading_same_hooks;
    [apply finish_frame | apply finish_history | repeat constructor].
Qed.

Lemma loading_rejected (s : Session) : loading s (log EvRejected s).
Proof.
  eapply loading_same_hooks;
    [apply same_hooks_log | reflexivity | repeat constructor].
Qed.

Lemma loading_elapse (n : nat) (ts : Interval * Session) :
  loading (snd ts) (snd (elapse n ts)).
Proof.
  destruct (elapse_spec n ts)
    as ((H1 & H2 & H3 & H4 & H5 & H6 & _) & l & Hl).
  repeat split; try assumption.
  exists (map EvSetLoadingProgress l). split; [exact Hl|].
  apply silent_progress.
Qed.

Lemma loading_preload (p : PlayerId) (k n : nat) (ok : bool)
      (ts : Interval * Session) :
  loading (snd ts) (snd (snd (preload p k n ok ts))).
Proof.
  unfold preload.
  destruct (playerRef p (snd ts)); [|apply loading_refl].
  destruct (nth_error (playlist (snd ts)) k) as [v|]; [|apply loading_refl].
  cbn [snd].
  eapply loading_trans; [apply loading_start|].
  eapply loading_trans; [|apply loading_finish].
  exact (loading_elapse n
           (fst ts, snd (start p (loadAsync (uri v) false) (snd ts)))).
Qed.

Lemma loading_loadInitialVideos (e : Startup) (s : Session) :
  loading s (snd (snd (loadInitialVideos e s))).
Proof.
  unfold loadInitialVideos.
  set (rA := preload Player0 0 (ticksA e) (loadAOk e) (mkInterval 0 false, s)).
  assert (HA : loading s (snd (snd rA)))
    by exact (loading_preload Player0 0 _ _ (mkInterval 0 false, s)).
  destruct (fst rA).
  - set (rB := preload Player1 1 (ticksB e) (loadBOk e) (snd rA)).
    assert (HB : loading s (snd (snd rB))).
    { eapply loading_trans; [exact HA | apply loading_preload]. }
    destruct (fst rB); cbn [snd].
    + eapply loading_trans; [exact HB|].
      repeat split. exists [EvSetLoadingProgress 100].
      split; [reflexivity | repeat constructor].
    + eapply loading_trans; [exact HB | apply loading_rejected].
  - cbn [snd]. eapply loading_trans; [exact HA | apply loading_rejected].
Qed.

(** ** The players during initialisation *)

Lemma start_playerRef_same (p : PlayerId) (c : Cmd) (s : Session) :
  playerRef p (snd (start p c s)) = option_map (issue c) (playerRef p s).
Proof.
  unfold start. destruct (playerRef p s) eqn:E; [|exact E].
  destruct p; reflexivity.
Qed.

Lemma start_playerRef_neq (p q : PlayerId) (c : Cmd) (s : Session) :
  q <> p -> playerRef q (snd (start p c s)) = playerRef q s.
Proof.
  intro H. unfold start. destruct (playerRef p s); [|reflexivity].
  destruct p, q; try congruence; reflexivity.
Qed.

Lemma finish_playerRef_same (p : PlayerId) (c : Cmd) (ok : bool)
      (s : Session) :
  playerRef p (finish p c ok s) = option_map (settle c ok) (playerRef p s).
Proof.
  unfold finish. destruct (playerRef p s) eqn:E.
  - destruct p; reflexivity.
  - rewrite log_playerRef. exact E.
Qed.

Lemma finish_playerRef_neq (p q : PlayerId) (c : Cmd) (ok : bool)
      (s : Session) :
  q <> p -> playerRef q (finish p c ok s) = playerRef q s.
Proof.
  intro H. unfold finish. destruct (playerRef p s); [|apply log_playerRef].
  destruct p, q; try congruence; reflexivity.
Qed.

Lemma elapse_playerRef (n : nat) (q : PlayerId) (ts : Interval * Session) :
  playerRef q (snd (elapse n ts)) = playerRef q (snd ts).
Proof.
  destruct (elapse_spec n ts) as ((_ & _ & _ & _ & _ & _ & HA & HB) & _).
  destruct q; assumption.
Qed.

Lemma preload_fst (p : PlayerId) (k n : nat) (ok : bool)
      (ts : Interval * Session) :
  fst (preload p k n ok ts) = if loadIssued p k (snd ts) then ok else true.
Proof.
  unfold preload, loadIssued.
  destruct (playerRef p (snd ts)); [|reflexivity].
  destruct (nth_error (playlist (snd ts)) k); reflexivity.
Qed.

Lemma preload_playerRef_neq (p q : PlayerId) (k n : nat) (ok : bool)
      (ts : Interval * Session) :
  q <> p ->
  playerRef q (snd (snd (preload p k n ok ts))) = playerRef q (snd ts).
Proof.
  intro H. unfold preload.
  destruct (playerRef p (snd ts)); [|reflexivity].
  destruct (nth_error (playlist (snd ts)) k) as [v|]; [|reflexivity].
  cbn [snd].
  rewrite finish_playerRef_neq, elapse_playerRef by exact H.
  cbn [snd]. apply start_playerRef_neq, H.
Qed.

Lemma showPlayers_spec (s : Session) :
  isReady (showPlayers s) = true
  /\ history (showPlayers s) = history s ++ [EvSetIsReady true]
  /\ playlist (showPlayers s) = playlist s
  /\ currentIndex (showPlayers s) = currentIndex s
  /\ activePlayerId (showPlayers s) = activePlayerId s
  /\ isPlaying (showPlayers s) = isPlaying s
  /\ pendingTaps (showPlayers s) = pendingTaps s.
Proof.
  destruct s as [pl ci rdy lp act [[ca pa]|] [[cb pb]|] playing ts h];
    destruct act; try destruct pa; try destruct pb; repeat split.
Qed.

(** ** The published progress values *)

Lemma loadInitialVideos_progress (e : Startup) (s : Session) :
  ticking (mkInterval 0 false, s) ->
  let r := loadInitialVideos e s in
  (fst r = false /\ ticking (snd r))
  \/ (fst r = true
      /\ cleared (fst (snd r)) = true
      /\ Sorted le (published (history (snd (snd r))))
      /\ last (published (history (snd (snd r)))) 0 = 100).
Proof.
  intros H0 r. subst r. unfold loadInitialVideos.
  set (rA := preload Player0 0 (ticksA e) (loadAOk e) (mkInterval 0 false, s)).
  assert (HA : ticking (snd rA)) by (apply ticking_preload, H0).
  destruct (fst rA).
  - set (rB := preload Player1 1 (ticksB e) (loadBOk e) (snd rA)).
    assert (HB : ticking (snd rB)) by (apply ticking_preload, HA).
    destruct (fst rB); cbn [fst snd].
    + right. destruct HB as (Hs & Hall & H90 & _).
      cbn [cleared setLoadingProgress log history].
      rewrite published_app. cbn [published flat_map progressOf app].
      repeat split.
      * apply Sorted_snoc; [exact Hs|].
        eapply Forall_impl; [|exact Hall]. cbn. intros; lia.
      * apply last_last.
    + left. split; [reflexivity|].
      apply (ticking_history (fst (snd rB)) (snd (snd rB)));
        [|destruct (snd rB); exact HB].
      rewrite log_history, published_app. apply app_nil_r.
  - left. cbn [fst snd]. split; [reflexivity|].
    apply (ticking_history (fst (snd rA)) (snd (snd rA)));
      [|destruct (snd rA); exact HA].
    rewrite log_history, published_app. apply app_nil_r.
Qed.

Lemma loadInitialVideos_ok (e : Startup) (s : Session) :
  loadAOk e = true -> loadBOk e = true ->
  fst (loadInitialVideos e s) = true.
Proof.
  intros HA HB. unfold loadInitialVideos.
  rewrite !preload_fst, HA, HB.
  destruct (loadIssued Player0 0 (snd (mkInterval 0 false, s))); cbn [fst snd].
  - match goal with |- context [loadIssued Player1 1 ?x] =>
      destruct (loadIssued Player1 1 x) end; reflexivity.
  - match goal with |- context [loadIssued Player1 1 ?x] =>
      destruct (loadIssued Player1 1 x) end; reflexivity.
Qed.

Lemma initialize_ready (e : Startup) (s : Session) :
  isReady s = false ->
  isReady (initialize e s) = fst (loadInitialVideos e s).
Proof.
  intro H. unfold initialize.
  destruct (fst (loadInitialVideos e s)).
  - apply showPlayers_spec.
  - destruct (loading_elapse (ticksAfter e) (snd (loadInitialVideos e s)))
      as (_ & _ & _ & H4 & _).
    destruct (loading_loadInitialVideos e s) as (_ & _ & _ & H4' & _).
    congruence.
Qed.

(** C9.  The values passed to [setLoadingProgress] from the moment the
    player is mounted: each is at most the one published after it, and
    when initialisation reaches the ready state the last one is 100.  It
    does reach it whenever neither load rejects. *)
Theorem progress_is_monotone (e : Startup) (steps : list VideoStep)
        (refA refB : option SurfaceState) :
  let s' := initialize e (mount steps refA refB) in
  let h := published (history s') in
  (forall i p1 p2 : nat,
      nth_error h i = Some p1 -> nth_error h (S i) = Some p2 -> p1 <= p2)
  /\ (isReady s' = true -> last h 0 = 100)
  /\ (loadAOk e = true -> loadBOk e = true ->
      isReady s' = true /\ last h 0 = 100).
Proof.
  intros s' h.
  set (s := mount steps refA refB) in *.
  assert (H0 : ticking (mkInterval 0 false, s)).
  { unfold ticking. cbn. repeat split; try constructor; lia. }
  assert (Hr : isReady s' = fst (loadInitialVideos e s))
    by (apply initialize_ready; reflexivity).
  assert (Hmain : Sorted le h /\ (isReady s' = true -> last h 0 = 100)).
  { subst h s'. rewrite Hr. unfold initialize.
    destruct (loadInitialVideos_progress e s H0)
      as [(Hf & Ht) | (Hf & Hc & Hs & Hl)]; rewrite Hf.
    - split; [|discriminate].
      apply (ticking_elapse (ticksAfter e)) in Ht. apply Ht.
    - rewrite (elapse_cleared _ _ Hc).
      destruct (showPlayers_spec (snd (snd (loadInitialVideos e s))))
        as (_ & Hh & _).
      rewrite Hh, published_app. cbn [published flat_map progressOf app].
      rewrite app_nil_r. split; [exact Hs | intros _; exact Hl]. }
  destruct Hmain as (Hsorted & Hlast).
  split; [apply Sorted_ascending, Hsorted|].
  split; [exact Hlast|].
  intros HA HB.
  assert (Hready : isReady s' = true)
    by (rewrite Hr; apply loadInitialVideos_ok; assumption).
  split; [exact Hready | exact (Hlast Hready)].
Qed.

Lemma progress_is_monotone_witness :
  let s' := initialize (mkStartup 3 true 20 true 5)
                       (mount clips3 blank blank) in
  isReady s' = true /\ last (published (history s')) 0 = 100.
Proof.
  exact (proj2 (proj2 (progress_is_monotone (mkStartup 3 true 20 true 5)
                                            clips3 blank blank))
               eq_refl eq_refl).
Defined.

(* ------------------------------------------------------------------ *)
(** * One player playing, and it is the visible one *)










(* ------------------------------------------------------------------ *)
(** * The two layers agree *)

(** Run alone, with both players mounted, a call of [handleTap] taken
    step by step ends in the state that [handleTap] computes. *)
Lemma alone_handleTap (o : Outcomes) (s : Session) :
  pendingTaps s = [] ->
  touchable s = true ->
  playerARef s <> None ->
  playerBRef s <> None ->
  run (alone o s) s = Some (handleTap o s).
Proof.
  destruct s as [pl ci rdy lp act [a|] [b|] playing ts h];
    cbn [pendingTaps playerARef playerBRef]; intros -> Ht HA HB;
    try congruence.
  unfold touchable in Ht. cbn [isPlaying isReady] in Ht.
  apply andb_prop in Ht. destruct Ht as [-> ->].
  unfold alone, handleTap. cbn [playlist currentIndex].
  destruct (length pl <=? ci + 1) eqn:E.
  - cbn [run step touchable isPlaying isReady andb]. unfold tap.
    cbn [playlist currentIndex]. rewrite E. reflexivity.
  - destruct o as [pk sk lk uk]. cbn [playOk stopOk loadOk unloadOk].
    replace (ci + 2) with (ci + 1 + 1) by lia.
    destruct (ci + 1 + 1 <? length pl) eqn:F.
    + destruct (nth_error pl (ci + 1 + 1)) as [v|] eqn:G.
      * destruct act, pk, sk, lk; cbn [app run step]; unfold touchable, tap;
          cbn -[Nat.leb Nat.ltb Nat.add]; rewrite ?E, ?F, ?G;
          cbn -[Nat.leb Nat.ltb Nat.add]; rewrite ?F, ?G; reflexivity.
      * apply nth_error_None in G. apply Nat.ltb_lt in F. lia.
    + destruct act, pk, sk, uk; cbn [app run step]; unfold touchable, tap;
        cbn -[Nat.leb Nat.ltb Nat.add]; rewrite ?E, ?F;
        cbn -[Nat.leb Nat.ltb Nat.add]; rewrite ?F; reflexivity.
Qed.

(* ------------------------------------------------------------------ *)
(** * The rendered layers *)

(** Lines 145-163: the layer of a player is opaque, in front and asked to
    play exactly when that player is the active one; so exactly one layer
    is. *)
Lemma layers_follow_active (s : Session) (p : PlayerId) :
  (opacity s p = 1 <-> p = activePlayerId s)
  /\ (zIndex s p = 2 <-> p = activePlayerId s)
  /\ (shouldPlay s p = true <-> p = activePlayerId s).
Proof.
  unfold opacity, zIndex, shouldPlay.
  destruct (activePlayerId s), p; cbn;
    repeat split; intro; congruence || reflexivity.
Qed.

(** X7.  With the refs null when the effect of line 65 runs, both guards
    of [loadInitialVideos] are false: no load is issued, no timer period
    elapses inside the function, the only progress value is 100, and the
    players that are then rendered are empty. *)
Remark null_refs_load_nothing (e : Startup) (steps : list VideoStep) :
  let s := initialize e (mount steps None None) in
  calls (history s) = []
  /\ published (history s) = [100]
  /\ isReady s = true
  /\ playerARef s = Some (mkSurface None Empty)
  /\ playerBRef s = Some (mkSurface None Empty).
Proof.
  cbv zeta. unfold initialize, loadInitialVideos, preload.
  cbn [mount playerRef playerARef playerBRef snd fst].
  rewrite elapse_cleared by reflexivity.
  repeat split.
Qed.

(* ------------------------------------------------------------------ *)
(** * The cursor stays inside the playlist *)

Lemma inside_same_hooks (s s' : Session) :
  same_hooks s s' -> inside s -> inside s'.
Proof.
  intros (H1 & H2 & _ & _ & _ & _ & H7) (Hc & Hts).
  unfold inside. rewrite H1, H2, H7. split; assumption.
Qed.

Lemma inside_putTask (i : nat) (t : Task) (s : Session) :
  inside s -> nextIndex t < length (playlist s) -> inside (putTask i t s).
Proof.
  intros (Hc & Hts) Ht. split; [exact Hc|].
  cbn [putTask setPendingTaps pendingTaps playlist].
  apply Forall_put; assumption.
Qed.

Lemma inside_dropTask (i : nat) (s : Session) :
  inside s -> inside (dropTask i s).
Proof.
  intros (Hc & Hts). split; [exact Hc|].
  cbn [dropTask setPendingTaps pendingTaps playlist].
  apply Forall_drop; assumption.
Qed.

Lemma inside_continue (i : nat) (t : Task) (ok : bool) (s : Session) :
  inside s -> nextIndex t < length (playlist s) ->
  inside (continue i t ok s)
  /\ playlist (continue i t ok s) = playlist s.
Proof.
  intros Hs Ht. unfold continue.
  assert (Hrej : inside (log EvRejected (dropTask i s))
                 /\ playlist (log EvRejected (dropTask i s)) = playlist s).
  { split; [|reflexivity].
    eapply inside_same_hooks; [apply same_hooks_log|].
    apply inside_dropTask, Hs. }
  destruct ok; [|exact Hrej].
  destruct (awaiting t).
  - set (s2 := setCurrentIndex (nextIndex t)
                 (setActivePlayerId (nextActiveId t) s)).
    assert (H2 : inside s2) by (destruct Hs as (_ & Hts); split; assumption).
    destruct (start_frame (other (nextActiveId t)) stopAsync s2) as (P & F).
    split; [|exact P].
    apply inside_putTask.
    + eapply inside_same_hooks; [exact (conj P F) | exact H2].
    + cbn [suspended nextIndex]. rewrite P. exact Ht.
  - destruct (nextIndex t + 1 <? length (playlist s)).
    + destruct (nth_error (playlist s) (nextIndex t + 1)) as [v|];
        [|exact Hrej].
      destruct (start_frame (other (nextActiveId t))
                            (loadAsync (uri v) false) s) as (P & F).
      split; [|exact P].
      apply inside_putTask.
      * eapply inside_same_hooks; [exact (conj P F) | exact Hs].
      * cbn [suspended nextIndex]. rewrite P. exact Ht.
    + destruct (start_frame (other (nextActiveId t)) unloadAsync s)
        as (P & F).
      split; [|exact P].
      apply inside_putTask.
      * eapply inside_same_hooks; [exact (conj P F) | exact Hs].
      * cbn [suspended nextIndex]. rewrite P. exact Ht.
  - split; [apply inside_dropTask, Hs | reflexivity].
  - split; [apply inside_dropTask, Hs | reflexivity].
Qed.

Lemma inside_step (l : Label) (s s' : Session) :
  step l s = Some s' -> inside s ->
  inside s' /\ playlist s' = playlist s.
Proof.
  intros Hstep Hs. destruct l as [|i ok|i]; cbn [step] in Hstep.
  - destruct (touchable s); [|discriminate].
    injection Hstep as <-. unfold tap.
    destruct (length (playlist s) <=? currentIndex s + 1) eqn:E.
    + split; [exact Hs | reflexivity].
    + apply Nat.leb_gt in E.
      destruct (start_frame (other (activePlayerId s)) playAsync s)
        as (P & C & F).
      destruct Hs as (Hc & Hts).
      split; [|exact P].
      unfold inside.
      cbn [setPendingTaps playlist currentIndex pendingTaps].
      destruct F as (_ & _ & _ & _ & F7).
      rewrite P, C, F7. split; [exact Hc|].
      apply Forall_app. split; [exact Hts|].
      constructor; [exact E | constructor].
  - destruct (nth_error (pendingTaps s) i) as [t|] eqn:Et; [|discriminate].
    destruct (call t) as [[p c]|]; [|discriminate].
    destruct (promise t); [|discriminate].
    injection Hstep as <-.
    destruct (finish_frame p c ok s) as (P & F).
    split; [|exact P].
    apply inside_putTask.
    + eapply inside_same_hooks; [exact (conj P F) | exact Hs].
    + cbn [nextIndex]. rewrite P.
      exact (Forall_nth_error _ i t _ (proj2 Hs) Et).
  - destruct (nth_error (pendingTaps s) i) as [t|] eqn:Et; [|discriminate].
    destruct (promise t) as [|ok]; [discriminate|].
    injection Hstep as <-.
    apply inside_continue; [exact Hs|].
    exact (Forall_nth_error _ i t _ (proj2 Hs) Et).
Qed.

(** X1.  From a session on its first clip with nothing in flight,
    whatever taps, completions and resumptions follow, overlapping or
    not: the playlist is never changed and [currentIndex] is always a
    position of it, so the clip at the cursor always exists. *)
Theorem cursor_stays_inside (s0 : Session) (ls : list Label) (s : Session) :
  currentIndex s0 < length (playlist s0) ->
  pendingTaps s0 = [] ->
  run ls s0 = Some s ->
  playlist s = playlist s0
  /\ currentIndex s < length (playlist s)
  /\ exists v, nth_error (playlist s) (currentIndex s) = Some v.
Proof.
  intros Hc Hts Hrun.
  assert (H0 : inside s0) by (split; [exact Hc | rewrite Hts; constructor]).
  assert (H : inside s /\ playlist s = playlist s0).
  { clear Hc Hts. revert s0 H0 Hrun.
    induction ls as [|l ls IH]; intros s0 H0 Hrun; cbn [run] in Hrun.
    - injection Hrun as <-. split; [exact H0 | reflexivity].
    - destruct (step l s0) as [s1|] eqn:E1; [|discriminate].
      destruct (inside_step l s0 s1 E1 H0) as (H1 & P1).
      destruct (IH s1 H1 Hrun) as (H & P).
      split; [exact H | congruence]. }
  destruct H as ((Hin & _) & P).
  split; [exact P|]. split; [exact Hin|].
  destruct (nth_error (playlist s) (currentIndex s)) as [v|] eqn:Ev.
  - exists v. reflexivity.
  - apply nth_error_None in Ev. lia.
Qed.

Lemma cursor_stays_inside_witness :
  match
    run [Tap; Tap; Complete 0 true; Resume 0; Tap; Complete 1 true; Resume 1]
        (showing_first clips3)
  with
  | Some s =>
      playlist s = clips3
      /\ currentIndex s < length (playlist s)
      /\ exists v, nth_error (playlist s) (currentIndex s) = Some v
  | None => False
  end.
Proof.
  destruct (run [Tap; Tap; Complete 0 true; Resume 0; Tap; Complete 1 true;
                 Resume 1] (showing_first clips3)) as [s|] eqn:Hrun.
  - apply (cursor_stays_inside (showing_first clips3)
             [Tap; Tap; Complete 0 true; Resume 0; Tap; Complete 1 true;
              Resume 1] s);
      [cbn; lia | reflexivity | exact Hrun].
  - vm_compute in Hrun. discriminate Hrun.
Defined.

(* ------------------------------------------------------------------ *)
(** * Advances with null refs, and rejections after the swap *)




(** X3.  When [playAsync] has resolved and [stopAsync] then rejects, the
    swap is not undone: [currentIndex] and [activePlayerId] keep their new
    values and the new player plays, but nothing is preloaded or unloaded
    (the call ends at the rejection) and the previous player is left as
    the stop request found it. *)
Theorem rejected_stop_keeps_swap (o : Outcomes) (s : Session)
        (vn vp : SurfaceState) :
  currentIndex s + 1 < length (playlist s) ->
  playerRef (other (activePlayerId s)) s = Some vn ->
  playerRef (activePlayerId s) s = Some vp ->
  playOk o = true ->
  stopOk o = false ->
  let next := other (activePlayerId s) in
  let prev := activePlayerId s in
  let s' := handleTap o s in
  history s'
  = history s
      ++ [EvCall next playAsync; EvSettled next playAsync true;
          EvSetActivePlayerId next; EvSetCurrentIndex (currentIndex s + 1);
          EvCall prev stopAsync; EvSettled prev stopAsync false; EvRejected]
  /\ calls (history s')
     = calls (history s) ++ [(next, playAsync); (prev, stopAsync)]
  /\ currentIndex s' = currentIndex s + 1
  /\ activePlayerId s' = next
  /\ playerRef next s' = Some (settle playAsync true vn)
  /\ playerRef prev s' = Some (issue stopAsync vp).
Proof.
  intros Hnext En Ep Hplay Hstop next prev s'.
  destruct (afterStop_spec o s vn vp Hnext En Ep Hplay)
    as (Heq & Hh & _ & Hc & Ha & _ & _ & _ & Hn & Hp).
  fold next prev in Heq, Hh, Ha, Hn, Hp. fold s' in Heq.
  rewrite Hstop in Heq, Hh, Hp.
  assert (Hh' : history s'
                = history s
                    ++ [EvCall next playAsync; EvSettled next playAsync true;
                        EvSetActivePlayerId next;
                        EvSetCurrentIndex (currentIndex s + 1);
                        EvCall prev stopAsync; EvSettled prev stopAsync false;
                        EvRejected]).
  { rewrite Heq, log_history, Hh, <- app_assoc. reflexivity. }
  split; [exact Hh'|].
  split; [rewrite Hh', calls_app; reflexivity|].
  rewrite Heq. repeat split; assumption.
Qed.

Lemma rejected_stop_keeps_swap_witness :
  let s' := handleTap (mkOutcomes true false true true)
                      (showing_first clips3) in
  currentIndex s' = 1
  /\ activePlayerId s' = Player1
  /\ calls (history s') = [(Player1, playAsync); (Player0, stopAsync)]
  /\ playerRef Player0 s' = Some (mkSurface (Some "a.mov"%string) Stopping).
Proof.
  destruct (rejected_stop_keeps_swap (mkOutcomes true false true true)
              (showing_first clips3) _ _ ltac:(cbn; lia) eq_refl eq_refl
              eq_refl eq_refl)
    as (_ & Hcalls & Hc & Ha & _ & Hp).
  repeat split; assumption.
Defined.

(** The third command of an advance from [s]: the preload of the clip two
    positions ahead, or the unload when there is none. *)
Lemma third_command_cases (s : Session) :
  (exists v, nth_error (playlist s) (currentIndex s + 1 + 1) = Some v
             /\ currentIndex s + 1 + 1 < length (playlist s))
  \/ (nth_error (playlist s) (currentIndex s + 1 + 1) = None
      /\ length (playlist s) <= currentIndex s + 1 + 1).
Proof.
  destruct (nth_error (playlist s) (currentIndex s + 1 + 1)) as [v|] eqn:Ev.
  - left. exists v. split; [reflexivity|].
    apply nth_error_Some. rewrite Ev. discriminate.
  - right. split; [reflexivity | apply nth_error_None, Ev].
Qed.

(** X4.  The commands one advance issues, with both players mounted: one
    per [await] reached, in the order play on the next player, stop on
    the previous one, then the preload (or unload) on the previous one;
    the call stops issuing at the first rejection.  So an advance issues
    at most three commands, and the player that becomes visible is only
    ever asked to play: no load happens on it during the advance. *)
Theorem advance_commands (o : Outcomes) (s : Session) :
  currentIndex s + 1 < length (playlist s) ->
  playerARef s <> None ->
  playerBRef s <> None ->
  let next := other (activePlayerId s) in
  let prev := activePlayerId s in
  let third :=
    match nth_error (playlist s) (currentIndex s + 1 + 1) with
    | Some v => loadAsync (uri v) false
    | None => unloadAsync
    end in
  let reached :=
    if playOk o then if stopOk o then 3 else 2 else 1 in
  calls (history (handleTap o s))
  = calls (history s)
      ++ firstn reached [(next, playAsync); (prev, stopAsync); (prev, third)].
Proof.
  intros Hnext HA HB next prev third reached.
  assert (Hmounted : forall q, playerRef q s <> None)
    by (intros []; assumption).
  destruct (playerRef next s) as [vn|] eqn:En;
    [| exfalso; exact (Hmounted next En)].
  destruct (playerRef prev s) as [vp|] eqn:Ep;
    [| exfalso; exact (Hmounted prev Ep)].
  destruct (playOk o) eqn:Hplay.
  - destruct (afterStop_spec o s vn vp Hnext En Ep Hplay)
      as (Heq & Hh & Hpl & _ & _ & _ & _ & _ & _ & Hp).
    fold next prev in Heq, Hh, Hp.
    set (s3 := afterStop o s) in *.
    assert (Hc3 : calls (history s3)
                  = calls (history s) ++ [(next, playAsync); (prev, stopAsync)])
      by (rewrite Hh, calls_app; reflexivity).
    rewrite Heq. subst reached.
    destruct (stopOk o) eqn:Hstop.
    + destruct (third_command_cases s) as [(v & Ev & Hfut) | (Ev & Hlast)].
      * subst third. rewrite Ev. rewrite <- Hpl in Hfut, Ev.
        destruct (preloadOrUnload_load o prev (currentIndex s + 1) s3 v _
                    Hfut Ev Hp) as (Hh' & _).
        rewrite Hh', calls_app, Hc3, <- app_assoc.
        destruct (loadOk o); reflexivity.
      * subst third. rewrite Ev. rewrite <- Hpl in Hlast.
        destruct (preloadOrUnload_unload o prev (currentIndex s + 1) s3 _
                    Hlast Hp) as (Hh' & _).
        rewrite Hh', calls_app, Hc3, <- app_assoc.
        destruct (unloadOk o); reflexivity.
    + rewrite log_history, calls_app, Hc3. cbn. apply app_nil_r.
  - subst reached.
    rewrite (handleTap_advance o s Hnext). fold next.
    rewrite and_then_rejected by (rewrite await_fst, En; exact Hplay).
    rewrite log_history, await_history, En, !calls_app. cbn.
    rewrite app_nil_r. reflexivity.
Qed.

Lemma advance_commands_witness :
  calls (history (handleTap all_ok (showing_first clips3)))
  = [(Player1, playAsync); (Player0, stopAsync);
     (Player0, loadAsync "c.mov" false)].
Proof.
  exact (advance_commands all_ok (showing_first clips3)
           ltac:(cbn; lia) ltac:(cbn; discriminate) ltac:(cbn; discriminate)).
Defined.

(* ------------------------------------------------------------------ *)
(** * The values of the progress indicator *)

Lemma counted_onInterval (j : nat) (ts : Interval * Session) :
  counted j ts -> exists j', counted j' (onInterval ts).
Proof.
  intros (Hj & Hp & Hc & Hpub). unfold onInterval.
  destruct (cleared (fst ts)) eqn:E.
  - exists j. unfold counted. rewrite E. repeat split; assumption.
  - symmetry in Hc. apply Nat.leb_gt in Hc.
    exists (S j). unfold counted.
    cbn [fst snd progress cleared setLoadingProgress log history].
    rewrite published_app, Hpub, Hp, seq_S, map_app.
    cbn [published flat_map progressOf app map].
    split; [lia|]. split; [lia|]. split.
    + destruct (Nat.leb_spec 9 (S j)) as [H|H].
      * apply Nat.ltb_lt. lia.
      * apply Nat.ltb_ge. lia.
    + f_equal. f_equal. lia.
Qed.

Lemma counted_elapse (n j : nat) (ts : Interval * Session) :
  counted j ts -> exists j', counted j' (elapse n ts).
Proof.
  intro H. induction n as [|n (j' & IH)]; [exists j; exact H|].
  rewrite elapse_S. exact (counted_onInterval j' _ IH).
Qed.

Lemma counted_history (j : nat) (t : Interval) (s s' : Session) :
  published (history s') = published (history s) ->
  counted j (t, s) -> counted j (t, s').
Proof.
  intros Hp (H1 & H2 & H3 & H4). unfold counted. cbn [fst snd] in *.
  rewrite Hp. repeat split; assumption.
Qed.

Lemma counted_preload (p : PlayerId) (k n : nat) (ok : bool) (j : nat)
      (ts : Interval * Session) :
  counted j ts -> exists j', counted j' (snd (preload p k n ok ts)).
Proof.
  intro H. unfold preload.
  destruct (playerRef p (snd ts)); [|exists j; exact H].
  destruct (nth_error (playlist (snd ts)) k) as [v|]; [|exists j; exact H].
  cbn [snd].
  set (ts0 := (fst ts, snd (start p (loadAsync (uri v) false) (snd ts)))).
  assert (H0 : counted j ts0).
  { apply (counted_history j (fst ts) (snd ts)); [apply start_published|].
    destruct ts; exact H. }
  destruct (counted_elapse n j ts0 H0) as (j' & H1).
  exists j'.
  apply (counted_history j' (fst (elapse n ts0)) (snd (elapse n ts0)));
    [|destruct (elapse n ts0); exact H1].
  rewrite finish_history, published_app. apply app_nil_r.
Qed.

(** X5.  The values passed to [setLoadingProgress] during one
    initialisation are exactly 10, 20, ..., 10j for some j <= 9, followed
    by 100 exactly when the ready state is reached: the interval stops
    itself at 90 however long the loads take, so the bar is updated at
    most ten times and never runs past the final 100. *)
Theorem progress_values (e : Startup) (steps : list VideoStep)
        (refA refB : option SurfaceState) :
  let s' := initialize e (mount steps refA refB) in
  exists j,
    j <= 9
    /\ published (history s')
       = map (fun k => 10 * k) (seq 1 j)
           ++ (if isReady s' then [100] else []).
Proof.
  intro s'. set (s := mount steps refA refB) in *.
  assert (H0 : counted 0 (mkInterval 0 false, s)) by (repeat split; lia).
  assert (Hr : isReady s' = fst (loadInitialVideos e s))
    by (apply initialize_ready; reflexivity).
  rewrite Hr. unfold s', initialize, loadInitialVideos.
  set (rA := preload Player0 0 (ticksA e) (loadAOk e) (mkInterval 0 false, s)).
  destruct (counted_preload Player0 0 (ticksA e) (loadAOk e) 0 _ H0)
    as (jA & HA).
  fold rA in HA.
  assert (Hfail : forall (j : nat) (ts : Interval * Session),
             counted j ts ->
             exists j',
               j' <= 9
               /\ published
                    (history (snd (elapse (ticksAfter e)
                                          (fst ts, log EvRejected (snd ts)))))
                  = map (fun k => 10 * k) (seq 1 j') ++ []).
  { intros j ts Hts.
    assert (H1 : counted j (fst ts, log EvRejected (snd ts))).
    { apply (counted_history j (fst ts) (snd ts));
        [|destruct ts; exact Hts].
      rewrite log_history, published_app. apply app_nil_r. }
    destruct (counted_elapse (ticksAfter e) j _ H1) as (j' & Hj & _ & _ & Hp).
    exists j'. rewrite app_nil_r. split; assumption. }
  destruct (fst rA).
  - set (rB := preload Player1 1 (ticksB e) (loadBOk e) (snd rA)).
    destruct (counted_preload Player1 1 (ticksB e) (loadBOk e) jA _ HA)
      as (jB & HB).
    fold rB in HB.
    destruct (fst rB); cbn [fst snd].
    + rewrite elapse_cleared by reflexivity. cbn [snd].
      destruct (showPlayers_spec (setLoadingProgress 100 (snd (snd rB))))
        as (_ & Hh & _).
      destruct HB as (Hj & _ & _ & Hp).
      exists jB. split; [exact Hj|].
      rewrite Hh, published_app.
      cbn [setLoadingProgress log history].
      rewrite published_app, Hp. cbn. rewrite app_nil_r. reflexivity.
    + exact (Hfail jB (snd rB) HB).
  - cbn [fst snd]. exact (Hfail jA (snd rA) HA).
Qed.

(* ------------------------------------------------------------------ *)
(** * The loads of initialisation *)

Lemma calls_progress (l : list nat) : calls (map EvSetLoadingProgress l) = [].
Proof. induction l as [|n l IH]; [reflexivity | exact IH]. Qed.

Lemma preload_calls (p : PlayerId) (k n : nat) (ok : bool)
      (ts : Interval * Session) :
  calls (history (snd (snd (preload p k n ok ts))))
  = calls (history (snd ts)) ++ initialLoad p k (snd ts).
Proof.
  unfold preload, initialLoad.
  destruct (playerRef p (snd ts)) eqn:Ep; [|symmetry; apply app_nil_r].
  destruct (nth_error (playlist (snd ts)) k) as [v|];
    [|symmetry; apply app_nil_r].
  cbn [snd].
  set (c := loadAsync (uri v) false).
  destruct (elapse_spec n (fst ts, snd (start p c (snd ts))))
    as (_ & l & Hl).
  rewrite finish_history, Hl. cbn [snd].
  rewrite start_history, Ep, !calls_app, calls_progress.
  cbn. rewrite !app_nil_r. reflexivity.
Qed.

Lemma initialLoad_after_preload (k n : nat) (ok : bool)
      (ts : Interval * Session) :
  initialLoad Player1 1 (snd (snd (preload Player0 k n ok ts)))
  = initialLoad Player1 1 (snd ts).
Proof.
  unfold initialLoad.
  rewrite preload_playerRef_neq by discriminate.
  destruct (loading_preload Player0 k n ok ts) as (H1 & _).
  rewrite H1. reflexivity.
Qed.

Lemma initialize_calls (e : Startup) (s : Session) :
  calls (history (initialize e s))
  = calls (history (snd (snd (loadInitialVideos e s)))).
Proof.
  unfold initialize.
  destruct (elapse_spec (ticksAfter e) (snd (loadInitialVideos e s)))
    as (_ & l & Hl).
  destruct (fst (loadInitialVideos e s)).
  - destruct (showPlayers_spec
                (snd (elapse (ticksAfter e) (snd (loadInitialVideos e s)))))
      as (_ & Hh & _).
    rewrite Hh, Hl, !calls_app, calls_progress.
    cbn. rewrite !app_nil_r. reflexivity.
  - rewrite Hl, calls_app, calls_progress. apply app_nil_r.
Qed.

(** X6.  The commands of one initialisation: the first clip is loaded
    into Player A, and only when that load has resolved (or was skipped)
    is the second clip loaded into Player B; both with
    [shouldPlay: false].  A guard that fails - a null ref, or no clip at
    that position - skips its load, and a rejected first load means the
    second is never issued.  Nothing is played, stopped or unloaded. *)
Theorem initial_loads (e : Startup) (s : Session) :
  calls (history (initialize e s))
  = calls (history s)
      ++ initialLoad Player0 0 s
      ++ (if loadIssued Player0 0 s && negb (loadAOk e)
          then []
          else initialLoad Player1 1 s).
Proof.
  rewrite initialize_calls. unfold loadInitialVideos.
  set (ts0 := (mkInterval 0 false, s)).
  set (rA := preload Player0 0 (ticksA e) (loadAOk e) ts0).
  assert (HA : calls (history (snd (snd rA)))
               = calls (history s) ++ initialLoad Player0 0 s)
    by exact (preload_calls Player0 0 _ _ ts0).
  assert (FA : fst rA = if loadIssued Player0 0 s then loadAOk e else true)
    by exact (preload_fst Player0 0 _ _ ts0).
  rewrite FA.
  destruct (loadIssued Player0 0 s); cbn [andb]; [destruct (loadAOk e)|];
    cbn [negb snd fst].
  - set (rB := preload Player1 1 (ticksB e) (loadBOk e) (snd rA)).
    assert (HB : calls (history (snd (snd rB)))
                 = calls (history (snd (snd rA)))
                     ++ initialLoad Player1 1 s).
    { unfold rB. rewrite preload_calls. unfold rA.
      rewrite initialLoad_after_preload. reflexivity. }
    destruct (fst rB); cbn [snd].
    + cbn [setLoadingProgress log history].
      rewrite calls_app, HB, HA. cbn. rewrite app_nil_r, app_assoc.
      reflexivity.
    + rewrite log_history, calls_app, HB, HA. cbn.
      rewrite app_nil_r, app_assoc. reflexivity.
  - rewrite log_history, calls_app, HA. cbn. rewrite !app_nil_r.
    reflexivity.
  - set (rB := preload Player1 1 (ticksB e) (loadBOk e) (snd rA)).
    assert (HB : calls (history (snd (snd rB)))
                 = calls (history (snd (snd rA)))
                     ++ initialLoad Player1 1 s).
    { unfold rB. rewrite preload_calls. unfold rA.
      rewrite initialLoad_after_preload. reflexivity. }
    destruct (fst rB); cbn [snd].
    + cbn [setLoadingProgress log history].
      rewrite calls_app, HB, HA. cbn. rewrite app_nil_r, app_assoc.
      reflexivity.
    + rewrite log_history, calls_app, HB, HA. cbn.
      rewrite app_nil_r, app_assoc. reflexivity.
Qed.

(* ------------------------------------------------------------------ *)
(** * The manager screen *)

Lemma decimal_inj (n m : nat) : decimal n = decimal m -> n = m.
Proof.
  unfold decimal. intro H.
  apply Unsigned.to_uint_inj.
  assert (H' : Some (Nat.to_uint n) = Some (Nat.to_uint m)).
  { rewrite <- (NilEmpty.usu (Nat.to_uint n)),
            <- (NilEmpty.usu (Nat.to_uint m)), H. reflexivity. }
  injection H' as H'. exact H'.
Qed.

Section ManagerFacts.

Variable stringify : list VideoStep -> string.
Variable parse : string -> option (list VideoStep).
Variable documentDirectory : string.

Lemma saveSteps_steps (ok : bool) (l : list VideoStep) (a : App) :
  steps (snd (saveSteps stringify ok l a)) = l.
Proof. unfold saveSteps. destruct ok; reflexivity. Qed.

Lemma saveSteps_copies (ok : bool) (l : list VideoStep) (a : App) :
  copies (snd (saveSteps stringify ok l a)) = copies a.
Proof. unfold saveSteps. destruct ok; reflexivity. Qed.

Lemma saveSteps_synced (l : list VideoStep) (a : App) :
  synced stringify (snd (saveSteps stringify true l a)).
Proof.
  unfold synced, saveSteps. cbn [snd setItem setSteps storage steps].
  rewrite String.eqb_refl. reflexivity.
Qed.

(** What a [pickVideo] does to the list: nothing, or one step added at
    the end. *)
Lemma pickVideo_steps (p : Pick) (a : App) :
  let a' := pickVideo stringify documentDirectory p a in
  (steps a' = steps a /\ copies a' = copies a /\ storage a' = storage a)
  \/ (steps a' = steps a ++ [newStepOf documentDirectory p a]
      /\ exists u,
          copies a' = copies a ++ [(u, uri (newStepOf documentDirectory p a))]).
Proof.
  intro a'. subst a'. unfold pickVideo.
  destruct (picked p) as [| |u]; [left; repeat split.. |].
  destruct (copyOk p); [|left; repeat split].
  right.
  set (a1 := copyAsync u (uri (newStepOf documentDirectory p a)) a).
  change (steps a) with (steps a1). change (copies a) with
    (copies a) in *.
  destruct (fst (saveSteps stringify (writeOk p)
                           (steps a1 ++ [newStepOf documentDirectory p a]) a1)).
  - rewrite saveSteps_steps, saveSteps_copies.
    split; [reflexivity | exists u; reflexivity].
  - cbn [alert steps copies].
    rewrite saveSteps_steps, saveSteps_copies.
    split; [reflexivity | exists u; reflexivity].
Qed.

Lemma clearAll_steps (c : Choice) (ok : bool) (a : App) :
  let a' := clearAll stringify c ok a in
  (steps a' = steps a \/ steps a' = []) /\ copies a' = copies a.
Proof.
  intro a'. subst a'. unfold clearAll.
  destruct c; [split; [left|]; reflexivity|].
  set (a1 := alert "Reset" "Delete all videos?" a).
  destruct (fst (saveSteps stringify ok [] a1)).
  - rewrite saveSteps_steps, saveSteps_copies. split; [right|]; reflexivity.
  - cbn [unhandledRejection steps copies].
    rewrite saveSteps_steps, saveSteps_copies. split; [right|]; reflexivity.
Qed.

Lemma numbered_snoc (l : list VideoStep) (v : VideoStep) :
  numbered l -> stepNumber v = length l + 1 -> numbered (l ++ [v]).
Proof.
  unfold numbered. intros Hl Hv.
  rewrite map_app, length_app, Hl. cbn [map length].
  rewrite Hv, Nat.add_1_r, seq_S. cbn [Nat.add]. reflexivity.
Qed.

Lemma numbered_act (x : Action) (a : App) :
  numbered (steps a) ->
  numbered (steps (act stringify documentDirectory x a)).
Proof.
  intro H. destruct x as [p|c ok]; cbn [act].
  - destruct (pickVideo_steps p a) as [(E & _) | (E & _)]; rewrite E.
    + exact H.
    + apply numbered_snoc; [exact H | reflexivity].
  - destruct (clearAll_steps c ok a) as ([E | E] & _); rewrite E.
    + exact H.
    + reflexivity.
Qed.

(** X9.  Whatever the user does on the manager screen - picks that
    succeed, are cancelled or fail, resets confirmed or cancelled - the
    steps stay numbered 1, 2, ..., n in order: the cards read Step 1 to
    Step n and the upload button announces Step n+1, which is the number
    [pickVideo] gives the next step. *)
Theorem steps_stay_numbered (xs : list Action) (a : App) :
  numbered (steps a) ->
  let a' := acts stringify documentDirectory xs a in
  numbered (steps a')
  /\ stepTitles a'
     = map (fun k => ("Step " ++ decimal k)%string) (seq 1 (length (steps a')))
  /\ forall p : Pick,
       uploadLabel a'
       = ("Upload Step "
            ++ decimal (stepNumber (newStepOf documentDirectory p a')))%string.
Proof.
  intros H a'.
  assert (Hn : numbered (steps a')).
  { subst a'. revert a H.
    induction xs as [|x xs IH]; intros a H; [exact H|].
    cbn [acts]. apply IH, numbered_act, H. }
  split; [exact Hn|]. split; [|reflexivity].
  unfold stepTitles.
  rewrite <- (map_map stepNumber (fun k => ("Step " ++ decimal k)%string)).
  rewrite Hn. reflexivity.
Qed.

Lemma synced_act (x : Action) (a : App) :
  writes x -> synced stringify a ->
  synced stringify (act stringify documentDirectory x a).
Proof.
  intros Hw Hs. destruct x as [p|c ok]; cbn [act writes] in *.
  - unfold pickVideo.
    destruct (picked p) as [| |u]; [exact Hs | exact Hs |].
    destruct (copyOk p).
    + rewrite Hw. cbn [fst saveSteps]. apply saveSteps_synced.
    + exact Hs.
  - unfold clearAll. destruct c; [exact Hs|].
    rewrite Hw. cbn [fst saveSteps]. apply saveSteps_synced.
Qed.

Lemma loadSteps_launch (st : string -> option string)
      (l : list VideoStep) :
  st STEPS_STORAGE_KEY = Some (stringify l) ->
  stringify l <> ""%string ->
  parse (stringify l) = Some l ->
  steps (loadSteps parse true (launch st)) = l.
Proof.
  intros Hst Hne Hp. unfold loadSteps. cbn [launch storage].
  rewrite Hst.
  destruct (String.eqb_spec (stringify l) "") as [E|_]; [contradiction|].
  rewrite Hp. reflexivity.
Qed.

(** X10.  Persistence across launches: if AsyncStorage holds the steps
    shown and every storage write of the actions that follow resolves,
    then launching the app again over the storage left behind and loading
    restores exactly the steps that were on screen - provided the stored
    text of that list is not empty and parses back to it. *)
Theorem relaunch_restores_steps (xs : list Action) (a : App) :
  synced stringify a ->
  Forall writes xs ->
  let a' := acts stringify documentDirectory xs a in
  stringify (steps a') <> ""%string ->
  parse (stringify (steps a')) = Some (steps a') ->
  synced stringify a'
  /\ steps (loadSteps parse true (launch (storage a'))) = steps a'.
Proof.
  intros Hs Hall a' Hne Hp.
  assert (Hs' : synced stringify a').
  { subst a'. clear Hne Hp. revert a Hs.
    induction Hall as [|x xs Hx _ IH]; intros a Hs; [exact Hs|].
    cbn [acts]. apply IH, synced_act; assumption. }
  split; [exact Hs'|].
  apply loadSteps_launch; assumption.
Qed.

(** X11.  A storage write that rejects during [pickVideo]: the file has
    been copied and the new step is on the list, the error alert is
    shown, but AsyncStorage still holds the old list - so the next launch
    shows the list without the new step. *)
Theorem rejected_write_loses_step (p : Pick) (a : App) (u : string) :
  synced stringify a ->
  picked p = PickerAsset u ->
  copyOk p = true ->
  writeOk p = false ->
  stringify (steps a) <> ""%string ->
  parse (stringify (steps a)) = Some (steps a) ->
  let a' := pickVideo stringify documentDirectory p a in
  steps a' = steps a ++ [newStepOf documentDirectory p a]
  /\ copies a'
     = copies a ++ [(u, uri (newStepOf documentDirectory p a))]
  /\ alerts a'
     = alerts a ++ [("Error", "Could not save video locally.")%string]
  /\ steps (loadSteps parse true (launch (storage a'))) = steps a.
Proof.
  intros Hs Hp Hc Hw Hne Hparse a'. subst a'.
  unfold pickVideo. rewrite Hp, Hc, Hw.
  cbn [saveSteps fst snd alert setSteps copyAsync steps copies alerts storage].
  repeat split.
  apply loadSteps_launch; assumption.
Qed.

(** X12.  A pick that does not get as far as the copy - the picker
    rejects, the user cancels, or the copy fails - leaves the list, the
    storage and the files as they were; the error alert is shown exactly
    when it was the copy that failed. *)
Theorem pick_without_copy (p : Pick) (a : App) :
  match picked p with PickerAsset _ => copyOk p = false | _ => True end ->
  let a' := pickVideo stringify documentDirectory p a in
  steps a' = steps a
  /\ storage a' = storage a
  /\ copies a' = copies a
  /\ alerts a'
     = alerts a
         ++ match picked p with
            | PickerAsset _ =>
                [("Error", "Could not save video locally.")%string]
            | _ => []
            end.
Proof.
  intros H a'. subst a'. unfold pickVideo.
  destruct (picked p) as [| |u].
  - repeat split. symmetry. apply app_nil_r.
  - repeat split. symmetry. apply app_nil_r.
  - rewrite H. repeat split.
Qed.

Lemma backed_act (x : Action) (a : App) :
  backed a -> backed (act stringify documentDirectory x a).
Proof.
  unfold backed. intro H. destruct x as [p|c ok]; cbn [act].
  - destruct (pickVideo_steps p a) as [(E & C & _) | (E & u & C)];
      rewrite E, C.
    + exact H.
    + rewrite map_app. apply Forall_app. split.
      * eapply Forall_impl; [|exact H]. intros v Hv.
        apply in_or_app. left. exact Hv.
      * constructor; [|constructor].
        apply in_or_app. right. left. reflexivity.
  - destruct (clearAll_steps c ok a) as ([E | E] & C); rewrite E, C.
    + exact H.
    + constructor.
Qed.

Lemma copies_act (x : Action) (a : App) :
  exists l, copies (act stringify documentDirectory x a) = copies a ++ l.
Proof.
  destruct x as [p|c ok]; cbn [act].
  - destruct (pickVideo_steps p a) as [(_ & C & _) | (_ & u & C)]; rewrite C.
    + exists []. symmetry. apply app_nil_r.
    + eexists. reflexivity.
  - destruct (clearAll_steps c ok a) as (_ & C). rewrite C.
    exists []. symmetry. apply app_nil_r.
Qed.

(** X13.  Files: through any sequence of actions, every step on the list
    points to a file the app has copied, and the record of copied files
    only grows - a confirmed reset empties the list but removes no
    file. *)
Theorem steps_are_backed (xs : list Action) (a : App) :
  backed a ->
  let a' := acts stringify documentDirectory xs a in
  backed a'
  /\ (exists l, copies a' = copies a ++ l)
  /\ forall ok, copies (clearAll stringify ChooseDelete ok a') = copies a'
                /\ steps (clearAll stringify ChooseDelete ok a') = [].
Proof.
  intros H a'. subst a'. revert a H.
  induction xs as [|x xs IH]; intros a H; cbn [acts].
  - split; [exact H|]. split; [exists []; symmetry; apply app_nil_r|].
    intro ok. unfold clearAll. destruct ok; split; reflexivity.
  - destruct (IH _ (backed_act x a H)) as (B & (l & C) & D).
    split; [exact B|]. split; [|exact D].
    destruct (copies_act x a) as (l0 & C0).
    exists (l0 ++ l). rewrite C, C0, app_assoc. reflexivity.
Qed.

Lemma listKeys_act (x : Action) (a : App) :
  listKeys (act stringify documentDirectory x a) = listKeys a
  \/ listKeys (act stringify documentDirectory x a) = []
  \/ exists p, x = DoPick p
               /\ listKeys (act stringify documentDirectory x a)
                  = listKeys a ++ [decimal (now2 p)].
Proof.
  unfold listKeys. destruct x as [p|c ok]; cbn [act].
  - destruct (pickVideo_steps p a) as [(E & _) | (E & _)]; rewrite E.
    + left. reflexivity.
    + right. right. exists p. rewrite map_app. split; reflexivity.
  - destruct (clearAll_steps c ok a) as ([E | E] & _); rewrite E.
    + left. reflexivity.
    + right. left. reflexivity.
Qed.

Lemma keys_stay_distinct (xs : list Action) :
  forall (a : App) (T : list nat),
    NoDup (listKeys a) ->
    incl (listKeys a) (map decimal T) ->
    NoDup (T ++ pickTimes xs) ->
    NoDup (listKeys (acts stringify documentDirectory xs a)).
Proof.
  induction xs as [|x xs IH]; intros a T Hnd Hin HT; [exact Hnd|].
  cbn [acts].
  destruct (listKeys_act x a) as [E | [E | (p & -> & E)]].
  - apply (IH _ T); rewrite ?E; try assumption.
    destruct x as [p|c ok]; cbn [pickTimes flat_map app] in HT.
    + apply NoDup_remove_1 in HT. exact HT.
    + exact HT.
  - apply (IH _ T); rewrite ?E.
    + constructor.
    + intros k [].
    + destruct x as [p|c ok]; cbn [pickTimes flat_map app] in HT.
      * apply NoDup_remove_1 in HT. exact HT.
      * exact HT.
  - cbn [pickTimes flat_map app] in HT.
    fold (pickTimes xs) in HT.
    apply (IH _ (T ++ [now2 p])); rewrite ?E.
    + apply NoDup_remove_2 in HT.
      assert (Hfresh : ~ In (decimal (now2 p)) (listKeys a)).
      { intro Hk. apply Hin in Hk. apply in_map_iff in Hk.
        destruct Hk as (t & Ht & HtT). apply decimal_inj in Ht. subst t.
        apply HT. apply in_or_app. left. exact HtT. }
      clear - Hnd Hfresh.
      induction (listKeys a) as [|k ks IHk]; cbn [app].
      * constructor; [intros [] | constructor].
      * inversion Hnd as [|k' ks' Hk Hks]; subst.
        constructor.
        -- intro Hk'. apply in_app_or in Hk'. destruct Hk' as [Hk' | [Hk' | []]].
           ++ exact (Hk Hk').
           ++ apply Hfresh. left. symmetry. exact Hk'.
        -- apply IHk; [exact Hks|]. intro Hk'. apply Hfresh. right. exact Hk'.
    + rewrite map_app. intros k Hk. apply in_app_or in Hk.
      apply in_or_app. destruct Hk as [Hk | Hk].
      * left. apply Hin, Hk.
      * right. exact Hk.
    + rewrite <- app_assoc. exact HT.
Qed.

(** X14.  The keys of the list (the ids of the steps) are pairwise
    distinct whenever the values of [Date.now()] taken for the ids of the
    picks are pairwise distinct, starting from an empty list and through
    any sequence of picks and resets. *)
Theorem list_keys_distinct (xs : list Action) (a : App) :
  steps a = [] ->
  NoDup (pickTimes xs) ->
  NoDup (listKeys (acts stringify documentDirectory xs a)).
Proof.
  intros Ha HT.
  apply (keys_stay_distinct xs a []).
  - unfold listKeys. rewrite Ha. constructor.
  - unfold listKeys. rewrite Ha. intros k [].
  - exact HT.
Qed.

(** X15.  [loadSteps] at its edges.  It never writes: storage, files and
    alerts are as before.  The list changes only when the key holds a
    non-empty text that parses, and then becomes exactly the parsed
    list; with the key missing or holding the empty text nothing happens
    at all; a read that rejects or a text that does not parse is caught
    and logged once, with the list left as it was. *)
Theorem loadSteps_edges (readOk : bool) (a : App) :
  let a' := loadSteps parse readOk a in
  let saved := storage a STEPS_STORAGE_KEY in
  storage a' = storage a
  /\ copies a' = copies a
  /\ alerts a' = alerts a
  /\ unhandled a' = unhandled a
  /\ (steps a' = steps a
      \/ exists text l, readOk = true /\ saved = Some text
                        /\ text <> ""%string /\ parse text = Some l
                        /\ steps a' = l)
  /\ (readOk = true -> (saved = None \/ saved = Some ""%string) -> a' = a)
  /\ (readOk = false
      \/ (exists text, saved = Some text /\ text <> ""%string
                       /\ parse text = None) ->
      steps a' = steps a
      /\ consoleErrors a' = consoleErrors a ++ ["Failed to load steps"%string]).
Proof.
  intros a' saved. subst a' saved. unfold loadSteps.
  destruct readOk.
  2:{ do 4 (split; [reflexivity|]).
      split; [left; reflexivity|]. split; [discriminate|].
      intros _. split; reflexivity. }
  destruct (storage a STEPS_STORAGE_KEY) as [text|] eqn:Es.
  2:{ do 4 (split; [reflexivity|]).
      split; [left; reflexivity|]. split; [intros _ _; reflexivity|].
      intros [H | (text & H & _)]; discriminate H. }
  destruct (String.eqb_spec text "") as [E|E].
  { subst text. do 4 (split; [reflexivity|]).
    split; [left; reflexivity|]. split; [intros _ _; reflexivity|].
    intros [H | (text & H & Hne & _)]; [discriminate H|].
    injection H as <-. contradiction. }
  destruct (parse text) as [l|] eqn:Ep.
  - do 4 (split; [reflexivity|]).
    split; [right; exists text, l; repeat split; assumption|].
    split.
    + intros _ [H | H]; [discriminate H | injection H as H; contradiction].
    + intros [H | (t & Ht & _ & Hp)]; [discriminate H|].
      injection Ht as <-. congruence.
  - do 4 (split; [reflexivity|]).
    split; [left; reflexivity|].
    split.
    + intros _ [H | H]; [discriminate H | injection H as H; contradiction].
    + intros _. split; reflexivity.
Qed.

End ManagerFacts.

Lemma steps_stay_numbered_witness :
  numbered (steps (acts emptyOnly "doc/"
                        [DoPick (pickOk "a" 5);
                         DoPick (mkPick PickerCanceled 6 6 true true);
                         DoPick (pickOk "b" 7);
                         DoPick (mkPick (PickerAsset "c") 8 8 false true)]
                        emptyApp)).
Proof.
  refine (proj1 (steps_stay_numbered emptyOnly "doc/" _ emptyApp _)).
  reflexivity.
Defined.

Lemma relaunch_restores_steps_witness :
  let a' := acts emptyOnly "doc/" onePick emptyApp in
  length (steps a') = 1
  /\ steps (loadSteps parseOnePick true (launch (storage a'))) = steps a'.
Proof.
  split; [reflexivity|].
  refine (proj2 (relaunch_restores_steps emptyOnly parseOnePick "doc/"
                   onePick emptyApp _ _ _ _)).
  - reflexivity.
  - repeat constructor.
  - vm_compute. discriminate.
  - reflexivity.
Defined.

Lemma rejected_write_loses_step_witness :
  let p := mkPick (PickerAsset "asset.mov") 5 6 true false in
  let a' := pickVideo emptyOnly "doc/" p emptyApp in
  length (steps a') = 1
  /\ steps (loadSteps parseEmptyOnly true (launch (storage a'))) = [].
Proof.
  destruct (rejected_write_loses_step emptyOnly parseEmptyOnly "doc/"
              (mkPick (PickerAsset "asset.mov") 5 6 true false) emptyApp
              "asset.mov")
    as (Hs & _ & _ & Hl);
    try reflexivity; [vm_compute; discriminate|].
  split; [cbv zeta; rewrite Hs; reflexivity | exact Hl].
Defined.

Lemma pick_without_copy_witness :
  let a' := pickVideo emptyOnly "doc/"
                      (mkPick (PickerAsset "asset.mov") 5 6 false true)
                      emptyApp in
  steps a' = []
  /\ alerts a' = [("Error", "Could not save video locally.")%string].
Proof.
  destruct (pick_without_copy emptyOnly "doc/"
              (mkPick (PickerAsset "asset.mov") 5 6 false true) emptyApp
              eq_refl)
    as (Hs & _ & _ & Ha).
  split; assumption.
Defined.

Lemma steps_are_backed_witness :
  backed (acts emptyOnly "doc/"
               [DoPick (pickOk "a" 5); DoClear ChooseDelete true;
                DoPick (pickOk "b" 7)]
               emptyApp).
Proof.
  refine (proj1 (steps_are_backed emptyOnly "doc/" _ emptyApp _)).
  constructor.
Defined.

Lemma list_keys_distinct_witness :
  NoDup (listKeys (acts emptyOnly "doc/"
                        [DoPick (pickOk "a" 5); DoPick (pickOk "b" 7)]
                        emptyApp)).
Proof.
  apply (list_keys_distinct emptyOnly "doc/"
           [DoPick (pickOk "a" 5); DoPick (pickOk "b" 7)] emptyApp).
  - reflexivity.
  - cbn. repeat constructor; cbn; intuition lia.
Defined.

(* ------------------------------------------------------------------ *)
(** * Counting the taps of an interleaving *)

Lemma within_impl (P Q : nat -> Prop) (s : Session) :
  (forall n, P n -> Q n) -> within P s -> within Q s.
Proof.
  intros H (Hc & Hts). split; [apply H, Hc|].
  eapply Forall_impl; [|exact Hts]. intros t Ht. apply H, Ht.
Qed.

Lemma within_same_hooks (P : nat -> Prop) (s s' : Session) :
  same_hooks s s' -> within P s -> within P s'.
Proof.
  intros (_ & H2 & _ & _ & _ & _ & H7) (Hc & Hts).
  unfold within. rewrite H2, H7. split; assumption.
Qed.

Lemma within_putTask (P : nat -> Prop) (i : nat) (t : Task) (s : Session) :
  within P s -> P (nextIndex t) -> within P (putTask i t s).
Proof.
  intros (Hc & Hts) Ht. split; [exact Hc|].
  cbn [putTask setPendingTaps pendingTaps].
  apply Forall_put; assumption.
Qed.

Lemma within_dropTask (P : nat -> Prop) (i : nat) (s : Session) :
  within P s -> within P (dropTask i s).
Proof.
  intros (Hc & Hts). split; [exact Hc|].
  cbn [dropTask setPendingTaps pendingTaps].
  apply Forall_drop; assumption.
Qed.

Lemma quiet_refl (s : Session) : quiet s s.
Proof. repeat split. Qed.

Lemma quiet_trans (s1 s2 s3 : Session) :
  quiet s1 s2 -> quiet s2 s3 -> quiet s1 s3.
Proof.
  intros (A1 & A2 & A3) (B1 & B2 & B3). repeat split; congruence.
Qed.

Lemma quiet_extends (s s' : Session) (l : list Event) :
  same_hooks s s' -> history s' = history s ++ l -> silent l -> quiet s s'.
Proof.
  intros (H1 & _ & _ & _ & H5 & _) Hh Hl.
  split; [exact H1|]. split; [exact H5|].
  rewrite Hh. apply silent_exits, Hl.
Qed.

Lemma quiet_start (p : PlayerId) (c : Cmd) (s : Session) :
  quiet s (snd (start p c s)).
Proof.
  eapply quiet_extends; [apply start_frame | apply start_history |].
  destruct (playerRef p s); repeat constructor.
Qed.

Lemma quiet_finish (p : PlayerId) (c : Cmd) (ok : bool) (s : Session) :
  quiet s (finish p c ok s).
Proof.
  eapply quiet_extends; [apply finish_frame | apply finish_history |].
  repeat constructor.
Qed.

Lemma quiet_tasks (ts : list Task) (s : Session) :
  quiet s (setPendingTaps ts s).
Proof. repeat split. Qed.

Lemma quiet_rejected (s : Session) : quiet s (log EvRejected s).
Proof.
  eapply quiet_extends; [apply same_hooks_log | apply log_history |].
  repeat constructor.
Qed.

Lemma quiet_swap (na : PlayerId) (ni : nat) (s : Session) :
  quiet s (setCurrentIndex ni (setActivePlayerId na s)).
Proof.
  split; [reflexivity|]. split; [reflexivity|].
  change (setCurrentIndex ni (setActivePlayerId na s)) with (swap na ni s).
  rewrite swap_history. apply silent_exits. repeat constructor.
Qed.

(** Running on from an [await] invokes no [onExit], and moves the cursor
    only to the target the call computed when it was started. *)
Lemma continue_quiet (P : nat -> Prop) (i : nat) (t : Task) (ok : bool)
      (s : Session) :
  within P s -> P (nextIndex t) ->
  within P (continue i t ok s) /\ quiet s (continue i t ok s).
Proof.
  intros Hs Ht. unfold continue.
  assert (Hdrop : within P (dropTask i s) /\ quiet s (dropTask i s))
    by (split; [apply within_dropTask, Hs | apply quiet_tasks]).
  assert (Hrej : within P (log EvRejected (dropTask i s))
                 /\ quiet s (log EvRejected (dropTask i s))).
  { destruct Hdrop as (W & Q). split.
    - eapply within_same_hooks; [apply same_hooks_log | exact W].
    - eapply quiet_trans; [exact Q | apply quiet_rejected]. }
  assert (Hput : forall (s1 : Session) (a : Await) (c : Cmd),
             within P s1 -> quiet s s1 ->
             let r := start (other (nextActiveId t)) c s1 in
             within P (putTask i (suspended (nextIndex t) (nextActiveId t)
                                            a (fst r)) (snd r))
             /\ quiet s (putTask i (suspended (nextIndex t) (nextActiveId t)
                                              a (fst r)) (snd r))).
  { intros s1 a c W Q r. split.
    - apply within_putTask; [|exact Ht].
      eapply within_same_hooks; [apply start_frame | exact W].
    - eapply quiet_trans; [exact Q|].
      eapply quiet_trans; [apply quiet_start | apply quiet_tasks]. }
  destruct ok; [|exact Hrej].
  destruct (awaiting t).
  - apply Hput; [|apply quiet_swap].
    destruct Hs as (_ & Hts). split; [exact Ht | exact Hts].
  - destruct (nextIndex t + 1 <? length (playlist s)).
    + destruct (nth_error (playlist s) (nextIndex t + 1)) as [v|];
        [|exact Hrej].
      apply Hput; [exact Hs | apply quiet_refl].
    + apply Hput; [exact Hs | apply quiet_refl].
  - exact Hdrop.
  - exact Hdrop.
Qed.

(** One step: a tap that finds a next clip starts a call whose target is
    one past the cursor; a tap on the last clip is the exit; no other
    step invokes [onExit]. *)
Lemma step_taps (l : Label) (s s' : Session) (k : nat) :
  step l s = Some s' ->
  within (fun n => n <= k) s ->
  within (fun n => n <= k + taps [l]) s'
  /\ (quiet s s'
      \/ (isPlaying s = true /\ isPlaying s' = false
          /\ playlist s' = playlist s
          /\ exits (history s') = exits (history s) + 1
          /\ length (playlist s) <= k + taps [l])).
Proof.
  intros Hstep Hs.
  assert (Hup : forall j (x : Session),
             within (fun n => n <= k) x -> within (fun n => n <= k + j) x)
    by (intros j x; apply within_impl; intros n Hn; lia).
  destruct l as [|i ok|i]; cbn [step] in Hstep.
  - destruct (touchable s) eqn:Ht; [|discriminate].
    injection Hstep as <-. unfold tap.
    change (taps [Tap]) with 1.
    destruct (length (playlist s) <=? currentIndex s + 1) eqn:E.
    + apply Nat.leb_le in E. split.
      * apply Hup. destruct Hs as (Hc & Hts). split; assumption.
      * right. apply touchable_isPlaying in Ht.
        split; [exact Ht|]. split; [reflexivity|]. split; [reflexivity|].
        split; [apply onExit_exits|].
        destruct Hs as (Hc & _). cbv beta in Hc. lia.
    + split.
      * destruct (start_frame (other (activePlayerId s)) playAsync s)
          as (_ & C & _ & _ & _ & _ & F7).
        destruct Hs as (Hc & Hts). cbv beta in Hc.
        unfold within. cbn [setPendingTaps currentIndex pendingTaps].
        rewrite C, F7. split; [lia|].
        apply Forall_app. split.
        -- eapply Forall_impl; [|exact Hts]. cbv beta. intros t Ht'. lia.
        -- constructor; [cbn [suspended nextIndex]; lia | constructor].
      * left. eapply quiet_trans; [apply quiet_start | apply quiet_tasks].
  - destruct (nth_error (pendingTaps s) i) as [t|] eqn:Et; [|discriminate].
    destruct (call t) as [[p c]|]; [|discriminate].
    destruct (promise t); [|discriminate].
    injection Hstep as <-.
    split.
    + apply Hup. apply within_putTask.
      * eapply within_same_hooks; [apply finish_frame | exact Hs].
      * cbn [nextIndex].
        exact (Forall_nth_error _ i t _ (proj2 Hs) Et).
    + left. eapply quiet_trans; [apply quiet_finish | apply quiet_tasks].
  - destruct (nth_error (pendingTaps s) i) as [t|] eqn:Et; [|discriminate].
    destruct (promise t) as [|ok]; [discriminate|].
    injection Hstep as <-.
    destruct (continue_quiet (fun n => n <= k) i t ok s Hs
                (Forall_nth_error _ i t _ (proj2 Hs) Et)) as (W & Q).
    split; [apply Hup, W | left; exact Q].
Qed.

Lemma taps_cons (l : Label) (ls : list Label) :
  taps (l :: ls) = taps [l] + taps ls.
Proof. unfold taps. cbn [filter]. destruct (isTap l); reflexivity. Qed.

(** Any interleaving: the cursor and the targets in flight have advanced
    by at most the number of taps, and either [onExit] was not invoked, or
    it was invoked once, by a tap, with the taps so far at least the
    length of the playlist. *)
Lemma run_taps (ls : list Label) :
  forall (s s' : Session) (k : nat),
    run ls s = Some s' ->
    within (fun n => n <= k) s ->
    within (fun n => n <= k + taps ls) s'
    /\ (quiet s s'
        \/ (isPlaying s = true /\ isPlaying s' = false
            /\ playlist s' = playlist s
            /\ exits (history s') = exits (history s) + 1
            /\ length (playlist s) <= k + taps ls)).
Proof.
  induction ls as [|l ls IH]; intros s s' k Hrun Hs; cbn [run] in Hrun.
  - injection Hrun as <-. split.
    + revert Hs. apply within_impl. intros n Hn. cbn. lia.
    + left. apply quiet_refl.
  - destruct (step l s) as [s1|] eqn:E1; [|discriminate].
    destruct (step_taps l s s1 k E1 Hs) as (W1 & D1).
    destruct (IH s1 s' (k + taps [l]) Hrun W1) as (W & D).
    rewrite taps_cons. split.
    + revert W. apply within_impl. intros n Hn. lia.
    + destruct D1 as [Q1 | (A1 & A2 & A3 & A4 & A5)];
        destruct D as [Q | (B1 & B2 & B3 & B4 & B5)].
      * left. eapply quiet_trans; eassumption.
      * right. destruct Q1 as (Q11 & Q12 & Q13).
        repeat split; try congruence; try lia.
        rewrite <- Q11. lia.
      * right. destruct Q as (Q11 & Q12 & Q13).
        repeat split; try congruence; lia.
      * congruence.
Qed.

(* ------------------------------------------------------------------ *)
(** * How many taps end a session *)

(** C2, amended.  From the first clip of a playlist of N >= 1 clips, with
    nothing in flight.  When the taps are handled one at a time (each
    call of [handleTap] runs to its end before the next tap, none arrives
    while an advance is in flight) and every [playAsync] resolves: fewer
    than N taps leave the session running, at the clip numbered by the
    taps, with [onExit] not invoked; N taps (or more) end it, with
    [onExit] invoked exactly once; and whatever the outcomes of the
    operations, [onExit] is never invoked a second time.  When taps may
    overlap, in every interleaving of taps, completions and resumptions,
    whatever the outcomes: [onExit] is invoked at most once, and fewer
    than N taps never end the session. *)
Theorem taps_to_finish (s : Session) (os : list Outcomes) :
  touchable s = true ->
  currentIndex s = 0 ->
  1 <= length (playlist s) ->
  pendingTaps s = [] ->
  Forall (fun o => playOk o = true) os ->
  let N := length (playlist s) in
  let s' := presses os s in
  (length os < N ->
   ~ finished s'
   /\ exits (history s') = exits (history s)
   /\ currentIndex s' = length os)
  /\ (N <= length os ->
      finished s'
      /\ exits (history s') = exits (history s) + 1
      /\ currentIndex s' = N - 1)
  /\ (forall os' : list Outcomes,
        exits (history (presses os' s)) <= exits (history s) + 1)
  /\ (forall (ls : list Label) (s1 : Session),
        run ls s = Some s1 ->
        exits (history s1) <= exits (history s) + 1
        /\ (taps ls < N ->
            ~ finished s1 /\ exits (history s1) = exits (history s))).
Proof.
  intros Ht Hc Hn Hts Hall N s'. subst N s'.
  assert (Hin : currentIndex s < length (playlist s)) by lia.
  destruct (presses_progress os s Ht Hall Hin) as (P1 & P2).
  rewrite Hc, Nat.sub_0_r in P1, P2. cbn [Nat.add] in P1.
  unfold finished.
  split; [|split; [|split]].
  - intro Hlen. destruct (P1 Hlen) as (R1 & R2 & R3).
    repeat split; [congruence | exact R2 | exact R3].
  - exact P2.
  - intro os'. apply presses_exits_le.
  - intros ls s1 Hrun.
    assert (W : within (fun n => n <= 0) s).
    { split; [rewrite Hc; constructor | rewrite Hts; constructor]. }
    destruct (run_taps ls s s1 0 Hrun W)
      as (_ & [(_ & Q2 & Q3) | (_ & _ & _ & E4 & E5)]).
    + split; [lia|]. intros _. split; [|exact Q3].
      rewrite Q2. rewrite (touchable_isPlaying s Ht). discriminate.
    + split; [lia|]. intro Hlt. cbn [Nat.add] in E5. lia.
Qed.

Lemma taps_to_finish_witness :
  let s := opened clips3 in
  let s' := presses [all_ok; all_ok; all_ok] s in
  finished s' /\ exits (history s') = exits (history s) + 1
  /\ currentIndex s' = 3 - 1.
Proof.
  assert (Hall : Forall (fun o => playOk o = true) [all_ok; all_ok; all_ok])
    by (repeat constructor).
  refine (proj1 (proj2 (taps_to_finish (opened clips3)
                          [all_ok; all_ok; all_ok] eq_refl eq_refl _
                          eq_refl Hall))
                _); cbn; lia.
Defined.

(* ------------------------------------------------------------------ *)
(** * From the manager screen to the end of a session *)

Lemma initialize_unmounted (e : Startup) (l : list VideoStep) :
  initialize e (mount l None None)
  = mkSession l 0 true 100 Player0 blank blank true []
              [EvSetLoadingProgress 100; EvSetIsReady true].
Proof.
  unfold initialize, loadInitialVideos, preload.
  cbn [mount playerRef playerARef playerBRef snd fst].
  rewrite elapse_cleared by reflexivity.
  reflexivity.
Qed.

(** X16.  "Start Experience" is offered exactly when there is at least
    one step.  The session it starts has the steps as its playlist; as
    its refs are still null when [loadInitialVideos] runs, it becomes
    ready without issuing a command.  With the taps handled one at a time
    (each call of [handleTap] run to its end before the next tap) and
    every [playAsync] resolving, fewer taps than there are steps leave the
    player on screen at the clip numbered by the taps, and as many taps as
    there are steps end it, with [onExit] invoked once.  When taps may
    overlap, in every interleaving, fewer taps than there are steps leave
    the player on screen with [onExit] not invoked. *)
Theorem started_session (a : App) (e : Startup) (os : list Outcomes) :
  (startExperience a = None <-> steps a = [])
  /\ forall s : Session,
      startExperience a = Some s ->
      Forall (fun o => playOk o = true) os ->
      let s1 := initialize e s in
      let s' := presses os s1 in
      playlist s1 = steps a
      /\ isReady s1 = true
      /\ calls (history s1) = []
      /\ (length os < length (steps a) ->
          ~ finished s' /\ currentIndex s' = length os)
      /\ (length (steps a) <= length os ->
          finished s' /\ exits (history s') = 1)
      /\ (forall (ls : list Label) (s2 : Session),
            run ls s1 = Some s2 ->
            taps ls < length (steps a) ->
            ~ finished s2 /\ exits (history s2) = 0).
Proof.
  split.
  - unfold startExperience, playButtonShown.
    destruct (steps a) as [|v l]; cbn; split; intro H;
      try reflexivity; discriminate.
  - intros s Hs Hall s1 s'.
    unfold startExperience, playButtonShown in Hs.
    destruct (0 <? length (steps a)) eqn:E; [|discriminate].
    injection Hs as <-. apply Nat.ltb_lt in E.
    assert (H1 : s1 = mkSession (steps a) 0 true 100 Player0 blank blank
                                true []
                                [EvSetLoadingProgress 100; EvSetIsReady true])
      by apply initialize_unmounted.
    assert (Hin : currentIndex s1 < length (playlist s1))
      by (rewrite H1; exact E).
    assert (Ht : touchable s1 = true) by (rewrite H1; reflexivity).
    destruct (presses_progress os s1 Ht Hall Hin) as (P1 & P2).
    fold s' in P1, P2. rewrite H1 in P1, P2.
    cbn [playlist currentIndex history] in P1, P2.
    rewrite Nat.sub_0_r in P1, P2.
    split; [rewrite H1; reflexivity|].
    split; [rewrite H1; reflexivity|].
    split; [rewrite H1; reflexivity|].
    split; [|split].
    + intro Hlen. destruct (P1 Hlen) as (R1 & _ & R3).
      unfold finished. split; [congruence | exact R3].
    + intro Hlen. destruct (P2 Hlen) as (R1 & R2 & _).
      split; [exact R1 | exact R2].
    + intros ls s2 Hrun Hlt.
      assert (W : within (fun n => n <= 0) s1)
        by (rewrite H1; split; constructor).
      destruct (run_taps ls s1 s2 0 Hrun W)
        as (_ & [(_ & Q2 & Q3) | (_ & _ & _ & _ & E5)]).
      * rewrite H1 in Q2, Q3. cbn in Q2, Q3.
        unfold finished. split; [congruence | exact Q3].
      * rewrite H1 in E5. cbn [playlist Nat.add] in E5. lia.
Qed.

Lemma started_session_witness :
  match startExperience (acts emptyOnly "doc/" onePick emptyApp) with
  | Some s =>
      finished (presses [all_ok] (initialize (mkStartup 0 true 0 true 0) s))
  | None => False
  end.
Proof.
  destruct (startExperience (acts emptyOnly "doc/" onePick emptyApp))
    as [s|] eqn:Hs.
  - refine (proj1 (proj1 (proj2 (proj2 (proj2 (proj2
             (proj2 (started_session
                       (acts emptyOnly "doc/" onePick emptyApp)
                       (mkStartup 0 true 0 true 0) [all_ok])
                    s Hs _))))) _)).
    + repeat constructor.
    + cbn. lia.
  - vm_compute in Hs. discriminate Hs.
Defined.

(* ------------------------------------------------------------------ *)
(** * Clips that cannot be loaded *)

